(** * React interview questions: a shallow embedding of the snippets' logic

    The repository is a collection of React/TypeScript snippets.  Each module
    below embeds the state-manipulating part of one snippet: component state
    becomes a record, a reducer or an event handler becomes a function on
    that record, browser facilities (local storage, timers, the clock) become
    explicit state that is threaded through the calls. *)

From Stdlib Require Import ZArith Lia DecimalString.
From stdpp Require Import base option list strings gmap.

Local Open Scope string_scope.

(** JavaScript truthiness of a string: only the empty string is falsy. *)
Definition truthy (s : string) : bool := negb (String.eqb s "").

(** ** question4/question.tsx, second document (Question 21):
       the Immer users reducer *)
Module ImmerUsers.

(** [{ id: number; name: string }]; ids are produced by [Date.now()], an
    integer number of milliseconds, and compared with [===]. *)
Record User := mkUser { id : Z; name : string }.

Record State := mkState { users : list User }.

Inductive Action :=
| add_user (payload : User)
| update_user (payload : User).

Definition initialState : State := {| users := [] |}.

#[global] Instance User_eq_dec : EqDecision User.
Proof. solve_decision. Defined.

(** [draft.users.find((u) => u.id === action.payload.id)]: the first user
    whose id equals the payload's, with its position in the array. *)
Definition find_user (payload : User) (us : list User) : option (nat * User) :=
  list_find (λ u, id u = id payload) us.

(** [produce(state, recipe)]: the recipe mutates a draft; the result shares
    everything the recipe did not touch. *)
Definition reducer (state : State) (action : Action) : State :=
  match action with
  | add_user payload =>
      (* draft.users.push(action.payload) *)
      {| users := users state ++ [payload] |}
  | update_user payload =>
      match find_user payload (users state) with
      | Some (i, user) =>
          (* user.name = action.payload.name *)
          {| users := <[i := {| id := id user; name := name payload |}]> (users state) |}
      | None => state
      end
  end.

(** A state with two users of the same id. *)
Definition sample_users : State :=
  {| users := [ {| id := 1; name := "Ann" |};
                {| id := 2; name := "Bob" |};
                {| id := 2; name := "Cid" |} ] |}.

End ImmerUsers.

(** ** unnamed/part_001 (Question 25): the form-validation hook *)
Module FormValidation.

Record FormState := mkForm { name : string; email : string; password : string }.

(** [Errors] is a JavaScript object with optional keys [name], [email] and
    [password]. *)
Abbreviation Errors := (gmap string string).

(** [Object.keys(o)] (the order of the keys plays no role below). *)
Definition Object_keys (o : Errors) : list string := (map_to_list o).*1.

Record Hook := mkHook { form : FormState; errors : Errors }.

Definition newErrors_of (f : FormState) : Errors :=
  let newErrors : Errors := ∅ in
  let newErrors :=
    if negb (truthy (name f)) then <["name" := "Name is required"]> newErrors
    else newErrors in
  let newErrors :=
    if negb (truthy (email f)) then <["email" := "Email is required"]> newErrors
    else newErrors in
  let newErrors :=
    if negb (truthy (password f)) then <["password" := "Password is required"]> newErrors
    else newErrors in
  newErrors.

(** [validate]: builds [newErrors], stores it with [setErrors] and returns
    whether it has no key. *)
Definition validate (h : Hook) : Hook * bool :=
  let newErrors := newErrors_of (form h) in
  ({| form := form h; errors := newErrors |},
   Nat.eqb (length (Object_keys newErrors)) 0).

(** What a submit leaves behind: the hook, whether [e.preventDefault()] ran,
    and how many times the callback was invoked. *)
Record Submitted := mkSubmitted {
  hook : Hook;
  defaultPrevented : bool;
  callbackCalls : nat
}.

Definition handleSubmit (h : Hook) : Submitted :=
  (* e.preventDefault() *)
  let prevented := true in
  let '(h', ok) := validate h in
  if ok then {| hook := h'; defaultPrevented := prevented; callbackCalls := 1 |}
  else {| hook := h'; defaultPrevented := prevented; callbackCalls := 0 |}.

(** Every field of the form is filled in. *)
Definition all_filled (f : FormState) : Prop :=
  name f ≠ "" ∧ email f ≠ "" ∧ password f ≠ "".

End FormValidation.

(** ** unnamed/part_003 (Question 13): the counter reducer *)
Module Counter.

(** [count] is a JavaScript number.  The component starts it at [0] and
    only ever adds or subtracts [1], so it is an integer; an integer [z] is
    kept as [Z] and every arithmetic result is rounded the way an IEEE-754
    double rounds it (53 bits of mantissa, ties to even).  Magnitudes stay
    far below [2^1024], so overflow to [Infinity] is not modelled. *)
Definition round_double (z : Z) : Z :=
  let a := Z.abs z in
  if (a <=? 2 ^ 53)%Z then z
  else
    let e := (Z.log2 a - 52)%Z in
    let q := (a / 2 ^ e)%Z in
    let r := (a mod 2 ^ e)%Z in
    let half := (2 ^ (e - 1))%Z in
    let q' :=
      if (r <? half)%Z then q
      else if (half <? r)%Z then (q + 1)%Z
      else if Z.even q then q else (q + 1)%Z in
    (Z.sgn z * (q' * 2 ^ e))%Z.

Definition js_add (a b : Z) : Z := round_double (a + b).
Definition js_sub (a b : Z) : Z := round_double (a - b).

Record State := mkState { count : Z }.

(** [type Action = { type: 'increment' | 'decrement' }]; the [default]
    branch of the switch is unreachable for a value of this type. *)
Inductive Action := increment | decrement.

Definition reducer (state : State) (action : Action) : State :=
  match action with
  | increment => {| count := js_add (count state) 1 |}
  | decrement => {| count := js_sub (count state) 1 |}
  end.

Definition initialState : State := {| count := 0 |}.

(** [dispatch] applied to a sequence of actions. *)
Definition dispatch_all (s : State) (acts : list Action) : State :=
  foldl reducer s acts.

(** The safe integers of JavaScript: magnitude at most [2^53 - 1]. *)
Definition safe (s : State) : Prop := (Z.abs (count s) < 2 ^ 53)%Z.

(** [b] undoes [a] on every state of [dom]. *)
Definition inverse_on (dom : State → Prop) (a b : Action) : Prop :=
  ∀ s, dom s → reducer (reducer s a) b = s.

End Counter.

(** ** unnamed/part_000, pattern 58 (and the identical hook of the hooks
       section): [useLocalStorage] *)
Module LocalStorage.

(** The browser's [window.localStorage]: a map from keys to strings. *)
Abbreviation Storage := (gmap string string).

(** [storage.getItem(key)]: the stored string, or [null]. *)
Definition getItem (st : Storage) (key : string) : option string := st !! key.

(** What [console.error] was given. *)
Inductive Thrown := TypeError | QuotaExceededError.

Record World := mkWorld { localStorage : Storage; console : list Thrown }.

Record Hook (value : Type) := mkHook { storedValue : value }.
Arguments mkHook {value} _.
Arguments storedValue {value} _.

Section Runtime.

(** The values of the hook are JavaScript values ([any]); the JSON codec
    and the storage quota belong to the runtime. *)
Variable value : Type.

(** [JSON.stringify(v)] as the string [setItem] receives, [None] when it
    throws (a cyclic structure, a BigInt). *)
Variable JSON_stringify : value → option string.

(** [JSON.parse(s)], [None] when it throws a SyntaxError. *)
Variable JSON_parse : string → option value.

(** Whether the browser accepts a store of this content; [setItem] throws
    a QuotaExceededError otherwise. *)
Variable quota : Storage → bool.

Definition setItem (st : Storage) (key v : string) : option Storage :=
  let st' := <[key := v]> st in
  if quota st' then Some st' else None.

(** The lazy initialiser of [useState]: what the hook reads back from the
    storage when a component mounts. *)
Definition readStored (key : string) (initialValue : value) (w : World) : value :=
  match getItem (localStorage w) key with
  | Some item =>
      if truthy item then
        match JSON_parse item with
        | Some v => v
        | None => initialValue
        end
      else initialValue
  | None => initialValue
  end.

Definition useLocalStorage (key : string) (initialValue : value) (w : World)
  : Hook value :=
  {| storedValue := readStored key initialValue w |}.

(** [setValue]: [setStoredValue(value)] runs first, so the in-memory value
    changes even when the write to the storage throws. *)
Definition setValue (key : string) (v : value) (h : Hook value) (w : World)
  : Hook value * World :=
  let h' := {| storedValue := v |} in
  match JSON_stringify v with
  | None => (h', {| localStorage := localStorage w; console := console w ++ [TypeError] |})
  | Some s =>
      match setItem (localStorage w) key s with
      | Some st' => (h', {| localStorage := st'; console := console w |})
      | None =>
          (h', {| localStorage := localStorage w;
                  console := console w ++ [QuotaExceededError] |})
      end
  end.

End Runtime.

(** A small instance of the runtime, used to run the hook on concrete
    values: [null], booleans and natural numbers, with their JSON text. *)
Inductive Json := JNull | JBool (b : bool) | JNum (n : N).

Definition stringify (v : Json) : option string :=
  Some match v with
       | JNull => "null"
       | JBool true => "true"
       | JBool false => "false"
       | JNum n => NilEmpty.string_of_uint (N.to_uint n)
       end.

Definition parse (s : string) : option Json :=
  if String.eqb s "null" then Some JNull
  else if String.eqb s "true" then Some (JBool true)
  else if String.eqb s "false" then Some (JBool false)
  else if truthy s && negb (String.prefix "0" s && negb (String.eqb s "0")) then
    match NilEmpty.uint_of_string s with
    | Some d => Some (JNum (N.of_uint d))
    | None => None
    end
  else None.

Definition unlimited (st : Storage) : bool := true.

(** Two storages to run the hook on. *)
Definition emptyWorld : World := {| localStorage := ∅; console := [] |}.

Definition prefilled : World :=
  {| localStorage := {[ "theme" := "true" ]}; console := [] |}.

End LocalStorage.

(** ** unnamed/part_000, pattern 10: the XState [toggleMachine] *)
Module Toggle.

(** The configuration object handed to [createMachine]: JavaScript objects
    become finite maps, [states] maps a state name to its [on] table, which
    maps an event name to the target state. *)
Record MachineConfig := mkMachine {
  machine_id : string;
  initial : string;
  states : gmap string (gmap string string)
}.

Definition toggleMachine : MachineConfig :=
  {| machine_id := "toggle";
     initial := "inactive";
     states :=
       {[ "inactive" := {[ "TOGGLE" := "active" ]};
          "active" := {[ "TOGGLE" := "inactive" ]} ]} |}.

(** A configuration is a finite state machine when its initial state and
    the target of every transition are among its named states. *)
Definition is_state_machine (m : MachineConfig) : Prop :=
  is_Some (states m !! initial m) ∧
  map_Forall (λ _ on, map_Forall (λ _ target, is_Some (states m !! target)) on)
             (states m).

(** The interpreter's step: [send(event)] moves to the target the current
    state lists for the event, and stays put when it lists none. *)
Definition transition (m : MachineConfig) (state event : string) : string :=
  match states m !! state with
  | Some on =>
      match on !! event with
      | Some target => target
      | None => state
      end
  | None => state
  end.

(** [useMachine(toggleMachine)] followed by a series of [send] calls. *)
Definition run (m : MachineConfig) (events : list string) : string :=
  foldl (transition m) (initial m) events.

(** The state a [TOGGLE] leads to. *)
Definition toggled (state : string) : string :=
  if decide (state = "inactive") then "active"
  else if decide (state = "active") then "inactive"
  else state.

(** Number of [TOGGLE] events in a series. *)
Definition toggles (events : list string) : nat :=
  length (filter (λ e, e = "TOGGLE") events).

End Toggle.

(** ** question20/question-solution.tsx, second document (Question 15):
       [useThrottle] and [useDebounce] *)
Module Throttle.

(** [lastCall = useRef<number>(0)]; times are [Date.now()] milliseconds. *)
Record Ref := mkRef { current : Z }.

Definition initialRef : Ref := {| current := 0 |}.

Section Callback.

(** The callback acts on some state [W] of the caller. *)
Variable W : Type.
Variable callback : W → W.

(** One call of the function [useThrottle] returns, at time [now]. *)
Definition throttled (delay now : Z) (lastCall : Ref) (w : W) : Ref * W :=
  if (delay <=? now - current lastCall)%Z then
    let w' := callback w in
    ({| current := now |}, w')
  else (lastCall, w).

(** A series of calls, at the given times. *)
Definition calls (delay : Z) (times : list Z) (lastCall : Ref) (w : W) : Ref * W :=
  foldl (λ rw now, throttled delay now rw.1 rw.2) (lastCall, w) times.

End Callback.

End Throttle.

Module Debounce.

(** The browser's timer queue: [setTimeout] returns a fresh handle and the
    callback [() => setDebouncedValue(value)] keeps the [value] it closed
    over. *)
Record Timer := mkTimer { handle : nat; due : Z; captured : string }.

Record Browser := mkBrowser { now : Z; timers : list Timer; next_handle : nat }.

(** The wait a timer makes of its delay argument.  The delay is kept as a
    32-bit signed integer: a delay from [0] to [2^31 - 1] milliseconds is
    waited for, a negative delay or one that does not fit fires at once. *)
Definition timeout_delay (delay : Z) : Z :=
  if ((0 <=? delay) && (delay <? 2 ^ 31))%Z then delay else 0%Z.

Definition setTimeout (b : Browser) (value : string) (delay : Z) : nat * Browser :=
  (next_handle b,
   {| now := now b;
      timers := timers b ++ [mkTimer (next_handle b) (now b + timeout_delay delay) value];
      next_handle := S (next_handle b) |}).

Definition clearTimeout (b : Browser) (h : nat) : Browser :=
  {| now := now b;
     timers := filter (λ t, handle t ≠ h) (timers b);
     next_handle := next_handle b |}.

(** One instance of the hook: its state, the dependencies [value, delay] of
    the effect that ran last, and the [handler] its cleanup closes over. *)
Record Hook := mkHook {
  debouncedValue : string;
  deps : string * Z;
  handler : nat
}.

(** The effect body: schedule the update. *)
Definition effect (value : string) (delay : Z) (debounced : string) (b : Browser)
  : Hook * Browser :=
  let '(h, b') := setTimeout b value delay in
  ({| debouncedValue := debounced; deps := (value, delay); handler := h |}, b').

(** First render: [useState(value)], then the effect. *)
Definition mount (value : string) (delay : Z) (b : Browser) : Hook * Browser :=
  effect value delay value b.

(** A later render with the given arguments: when [value] or [delay]
    changed, the previous effect's cleanup runs, then the effect. *)
Definition render (value : string) (delay : Z) (h : Hook) (b : Browser)
  : Hook * Browser :=
  if decide (deps h = (value, delay)) then (h, b)
  else effect value delay (debouncedValue h) (clearTimeout b (handler h)).

(** Time passes until [t]: every timer that is due fires, in order, and
    leaves the queue. *)
Definition elapse (t : Z) (h : Hook) (b : Browser) : Hook * Browser :=
  let t' := Z.max t (now b) in
  let fired := filter (λ tm, (due tm <= t')%Z) (timers b) in
  let pending := filter (λ tm, ¬ (due tm <= t')%Z) (timers b) in
  (foldl (λ h tm, {| debouncedValue := captured tm; deps := deps h; handler := handler h |})
         h fired,
   {| now := t'; timers := pending; next_handle := next_handle b |}).

(** Whether some pending timer is due when time has passed until [t]. *)
Definition is_due (t : Z) (b : Browser) : bool :=
  existsb (λ tm, (due tm <=? Z.max t (now b))%Z) (timers b).

(** Unmounting runs the cleanup. *)
Definition unmount (h : Hook) (b : Browser) : Browser := clearTimeout b (handler h).

Inductive Event := Render (value : string) (delay : Z) | Elapse (t : Z).

Definition step (hb : Hook * Browser) (e : Event) : Hook * Browser :=
  match e with
  | Render value delay => render value delay hb.1 hb.2
  | Elapse t => elapse t hb.1 hb.2
  end.

Definition freshBrowser (t : Z) : Browser :=
  {| now := t; timers := []; next_handle := 0 |}.

(** At most one timeout is pending, it is the one the current cleanup would
    clear, and it carries the value of the latest render. *)
Definition pending_latest (hb : Hook * Browser) : Prop :=
  (length (timers hb.2) ≤ 1)%nat ∧
  Forall (λ tm, handle tm = handler hb.1 ∧ captured tm = (deps hb.1).1) (timers hb.2).

End Debounce.

(** ** Promises and errors shared by the data-fetching snippets *)

(** A thrown or rejected value, with the [message] the catch branches read. *)
Record Error := mkError { message : string }.

(** How an awaited promise settles. *)
Inductive Settled (A : Type) :=
| resolved (a : A)
| rejected (e : Error).
Arguments resolved {A} _.
Arguments rejected {A} _.

(** What a component shows. *)
Inductive View (item : Type) :=
| LoadingView
| ErrorView (text : string)
| ListView (items : list item).
Arguments LoadingView {item}.
Arguments ErrorView {item} _.
Arguments ListView {item} _.

(** [if (error)] on a [string | null]. *)
Definition error_truthy (error : option string) : bool :=
  match error with
  | Some s => truthy s
  | None => false
  end.

(** ** unnamed/part_002 (Question 14): [DataFetchingComponent] with the
       [isMounted] flag *)
Module DataFetching.

Record Component := mkComponent {
  data : list string;
  loading : bool;
  isMounted : bool
}.

(** State after the first render, once the effect has set [isMounted]. *)
Definition mounted : Component :=
  {| data := []; loading := true; isMounted := true |}.

(** [loadData], resumed when [fetchData()] settles. *)
Definition loadData (c : Component) (r : Settled (list string)) : Component :=
  match r with
  | resolved result =>
      if isMounted c then
        {| data := result; loading := false; isMounted := isMounted c |}
      else c
  | rejected _ =>
      (* catch (error) { // Handle error } *)
      c
  end.

(** The effect's cleanup, run on unmount. *)
Definition cleanup (c : Component) : Component :=
  {| data := data c; loading := loading c; isMounted := false |}.

Definition render (c : Component) : View string :=
  if loading c then LoadingView else ListView (data c).

End DataFetching.

(** ** question1/question.tsx: the class component [UserList] *)
Module ClassUserList.

Record User := mkUser { id : Z; name : string; email : string }.

Record State := mkState {
  users : list User;
  loading : bool;
  error : option string
}.

Definition initialState : State :=
  {| users := []; loading := true; error := None |}.

(** The part of an axios response the snippet reads. *)
Record AxiosResponse := mkResponse { data : list User }.

(** [fetchUsers], resumed when [axios.get] settles; [setState] merges the
    given fields into the state. *)
Definition fetchUsers (st : State) (r : Settled AxiosResponse) : State :=
  match r with
  | resolved response =>
      {| users := data response; loading := false; error := error st |}
  | rejected e =>
      {| users := users st; loading := false; error := Some (message e) |}
  end.

Definition render (st : State) : View User :=
  if loading st then LoadingView
  else if error_truthy (error st) then ErrorView (default "" (error st))
  else ListView (users st).

End ClassUserList.

(** ** question16/question-solution.tsx: the [useFetch] hook *)
Module UseFetch.

Record FetchState (T : Type) := mkFetchState {
  data : option T;
  loading : bool;
  error : option string
}.
Arguments mkFetchState {T} _ _ _.
Arguments data {T} _.
Arguments loading {T} _.
Arguments error {T} _.

(** A [fetch] response: the [ok] flag and how [response.json()] settles. *)
Record Response (T : Type) := mkResponse { ok : bool; json : Settled T }.
Arguments mkResponse {T} _ _.
Arguments ok {T} _.
Arguments json {T} _.

Definition initialState {T : Type} : FetchState T :=
  {| data := None; loading := true; error := None |}.

(** The catch branch. *)
Definition on_error {T : Type} (e : Error) : FetchState T :=
  {| data := None; loading := false; error := Some (message e) |}.

(** [fetchData], resumed when [fetch(url)] settles.  Every [setState] call
    replaces the whole state, so the previous state plays no role. *)
Definition fetchData {T : Type} (st : FetchState T) (r : Settled (Response T))
  : FetchState T :=
  match r with
  | resolved response =>
      if negb (ok response) then
        on_error {| message := "Network response was not ok" |}
      else
        match json response with
        | resolved d => {| data := Some d; loading := false; error := None |}
        | rejected e => on_error e
        end
  | rejected e => on_error e
  end.

End UseFetch.

(** ** unnamed/part_000, pattern 72 (the document holds it twice): the
       [useFetch] hook with an error state *)
Module PatternUseFetch.

(** Three separate states; [error] holds the caught value itself. *)
Record State (T : Type) := mkState {
  data : option T;
  loading : bool;
  error : option Error
}.
Arguments mkState {T} _ _ _.
Arguments data {T} _.
Arguments loading {T} _.
Arguments error {T} _.

Definition initialState {T : Type} : State T :=
  {| data := None; loading := true; error := None |}.

(** [fetchData], resumed when [fetch(url)] settles: [response.ok] is not
    read, [setData] or [setError] runs, and [finally] clears [loading]. *)
Definition fetchData {T : Type} (st : State T) (r : Settled (UseFetch.Response T))
  : State T :=
  match r with
  | resolved response =>
      match UseFetch.json response with
      | resolved d => {| data := Some d; loading := false; error := error st |}
      | rejected e => {| data := data st; loading := false; error := Some e |}
      end
  | rejected e => {| data := data st; loading := false; error := Some e |}
  end.

End PatternUseFetch.

(** ** question1/solution.tsx: the function component [UserList] *)
Module UserListSolution.

Record User := mkUser { id : Z; name : string; email : string }.

(** What the server sent as [response.data]: the type says an array of
    users, the code destructures a [users] property from it. *)
Inductive ResponseData :=
| data_array (us : list User)
| data_object (users_field : option (list User)).

(** The response object of axios: [data], [status], [statusText],
    [headers], [config] and [request] are its properties. *)
Record AxiosResponse := mkResponse {
  data : ResponseData;
  status : Z;
  statusText : string
}.

(** The value of a property read on the response. *)
Inductive PropValue :=
| undefined
| number_value (z : Z)
| string_value (s : string)
| data_value (d : ResponseData)
| object_value.

Definition get (response : AxiosResponse) (prop : string) : PropValue :=
  if String.eqb prop "data" then data_value (data response)
  else if String.eqb prop "status" then number_value (status response)
  else if String.eqb prop "statusText" then string_value (statusText response)
  else if String.eqb prop "headers" then object_value
  else if String.eqb prop "config" then object_value
  else if String.eqb prop "request" then object_value
  else undefined.

(** JavaScript's ToBoolean. *)
Definition to_boolean (v : PropValue) : bool :=
  match v with
  | undefined => false
  | number_value z => negb (z =? 0)%Z
  | string_value s => truthy s
  | data_value _ => true
  | object_value => true
  end.

(** [const { users } = response.data]: an array has no [users] property. *)
Definition users_of (d : ResponseData) : option (list User) :=
  match d with
  | data_array _ => None
  | data_object f => f
  end.

(** [users] is [None] when [setUsers] was handed [undefined]. *)
Record State := mkState {
  error : option string;
  loading : bool;
  users : option (list User)
}.

Definition initialState : State :=
  {| error := None; loading := true; users := Some [] |}.

(** Which branch of the [try] ... [catch] completed the call. *)
Inductive Branch := try_completed | catch_reached.

(** The catch branch of [fetchUsers]. *)
Definition on_error (st : State) (e : Error) : State :=
  {| error := Some (message e); loading := false; users := users st |}.

(** [fetchUsers], resumed when [axios.get] settles. *)
Definition fetchUsers (st : State) (r : Settled AxiosResponse) : State * Branch :=
  match r with
  | resolved response =>
      if negb (to_boolean (get response "ok")) then
        (on_error st {| message := "Fetching data about users failed" |}, catch_reached)
      else
        ({| error := error st; loading := false; users := users_of (data response) |},
         try_completed)
  | rejected e => (on_error st e, catch_reached)
  end.

(** The effect: [if (loading) fetchUsers()]. *)
Definition effect (st : State) (r : Settled AxiosResponse) : State :=
  if loading st then (fetchUsers st r).1 else st.

(** [None] when rendering throws ([users.map] on [undefined]). *)
Definition render (st : State) : option (View User) :=
  if loading st then Some LoadingView
  else if error_truthy (error st) then Some (ErrorView (default "" (error st)))
  else ListView <$> users st.

End UserListSolution.

(** ** question4/solution.tsx: the [UserProfile] form *)
Module UserProfile.

Section Number.

(** JavaScript numbers and the conversion [Number(string)], which yields
    [NaN] for a string that is not a numeric literal. *)
Variable number : Type.
Variable Number : string → number.

Record User := mkUser { name : string; age : number }.

Definition handleNameChange (user : User) (value : string) : User :=
  {| name := value; age := age user |}.

Definition handleAgeChange (user : User) (value : string) : User :=
  {| name := name user; age := Number value |}.

End Number.

Arguments mkUser {number} _ _.
Arguments name {number} _.
Arguments age {number} _.
Arguments handleNameChange {number} _ _.
Arguments handleAgeChange {number} _ _ _.

End UserProfile.

(** ** The import statements of the source tree *)
Module Imports.

(** A source file: its path in the tree and the module specifiers of its
    [import ... from], [import(...)] and [require(...)] forms, in order of
    first appearance.  Eight files are known by position only and are
    listed under [unnamed/]. *)
Record SourceFile := mkSourceFile { path : string; imports : list string }.

Definition repository : list SourceFile :=
  [
    {| path := "react-interview-questions/question1/question.tsx";
       imports :=
       ["react"; "axios"] |};
    {| path := "react-interview-questions/question1/solution.tsx";
       imports :=
       ["react"; "axios"] |};
    {| path := "react-interview-questions/question16/question-solution.tsx";
       imports :=
       ["react"] |};
    {| path := "react-interview-questions/question17/question-solution.tsx";
       imports :=
       ["react"; "react-window"] |};
    {| path := "react-interview-questions/question2/question.md";
       imports :=
       [] |};
    {| path := "react-interview-questions/question20/question-solution.tsx";
       imports :=
       ["react"; "./LazyComponent"] |};
    {| path := "react-interview-questions/question22/question-solution.tsx";
       imports :=
       ["react"] |};
    {| path := "react-interview-questions/question23/question-solution.tsx";
       imports :=
       ["react"] |};
    {| path := "react-interview-questions/question24/question-solution.tsx";
       imports :=
       ["react"] |};
    {| path := "react-interview-questions/question4/question.tsx";
       imports :=
       ["react"; "immer"] |};
    {| path := "react-interview-questions/question4/solution.tsx";
       imports :=
       ["react"] |};
    {| path := "react-interview-questions/question7/question-solution.tsx";
       imports :=
       ["react"] |};
    {| path := "react-interview-questions/question8/question-solution.tsx";
       imports :=
       ["react"] |};
    {| path := "unnamed/part_000";
       imports :=
       ["../atoms/Input"; "../atoms/Button"; "../molecules/SearchBar";
        "react"; "../components/UserList"; "../hooks/useFetch"; "xstate";
        "@xstate/react"; "@reduxjs/toolkit"; "./slices/userSlice";
        "react-redux"; "../store/slices/userSlice"; "next";
        "./LazyComponent"; "./OtherComponent"; "styled-components";
        "@storybook/react"; "./Button"; "@testing-library/react";
        "./serviceWorkerRegistration"; "@apollo/client"; "i18next";
        "react-i18next"; "zustand"; "recoil"; "react-query"; "formik";
        "framer-motion"; "react-dnd"; "socket.io-client";
        "@auth0/auth0-react"; "webpack/lib/container/ModuleFederationPlugin";
        "app1/Button"; "unleash-client-react"; "immer"; "y-webrtc"; "yjs";
        "../path/to/wasm"; "@react-three/fiber"; "@tensorflow/tfjs";
        "workbox-webpack-plugin"; "@sentry/react"; "@sentry/tracing";
        "react-reconciler"; "react-devtools-core"; "react-dom/server";
        "react-dom"; "scheduler"; "./App"; "http"] |};
    {| path := "unnamed/part_001";
       imports :=
       ["react"] |};
    {| path := "unnamed/part_002";
       imports :=
       ["react"] |};
    {| path := "unnamed/part_003";
       imports :=
       ["react"] |};
    {| path := "unnamed/part_004";
       imports :=
       [] |};
    {| path := "unnamed/part_005";
       imports :=
       ["react"; "react-hook-form"] |};
    {| path := "unnamed/part_006";
       imports :=
       ["react"] |};
    {| path := "unnamed/part_007";
       imports :=
       ["react"] |}
  ].

(** The character ["/"]. *)
Definition slash : Ascii.ascii := Ascii.ascii_of_nat 47.

(** Splitting a path or a specifier at ["/"]. *)
Fixpoint split_path_aux (s : string) (seg : string) : list string :=
  match s with
  | EmptyString => [seg]
  | String c s' =>
      if Ascii.eqb c slash then seg :: split_path_aux s' ""
      else split_path_aux s' (seg ++ String c "")
  end.

Definition split_path (s : string) : list string := split_path_aux s "".

(** A specifier is relative when it starts with [./] or [../]; any other
    specifier names a package. *)
Definition is_relative (spec : string) : bool :=
  String.prefix "./" spec || String.prefix "../" spec.

(** Directory of a file, as segments. *)
Definition dirname (p : string) : list string := removelast (split_path p).

(** Walking the segments of a relative specifier from a directory. *)
Definition walk (dir : list string) (segs : list string) : list string :=
  foldl (λ d seg,
           if String.eqb seg "." then d
           else if String.eqb seg ".." then removelast d
           else (d ++ [seg])%list) dir segs.

Definition join_path (segs : list string) : string :=
  match segs with
  | [] => ""
  | s :: rest => foldl (λ acc seg, acc ++ "/" ++ seg) s rest
  end.

(** The file names a module resolver tries for a target without extension. *)
Definition candidates (target : string) : list string :=
  let exts := [".ts"; ".tsx"; ".d.ts"; ".js"; ".jsx"; ".mjs"; ".cjs"; ".json"; ".md"] in
  target :: app (map (λ e, target ++ e) exts) (map (λ e, target ++ "/index" ++ e) exts).

Definition resolve (f : SourceFile) (spec : string) : list string :=
  candidates (join_path (walk (dirname (path f)) (split_path spec))).

(** Whether the specifier, imported from [f], names a file of the tree. *)
Definition resolves_in (repo : list SourceFile) (f : SourceFile) (spec : string) : bool :=
  is_relative spec &&
  existsb (λ c, existsb (λ g, String.eqb c (path g)) repo) (resolve f spec).

(** The files a file depends on. *)
Definition dependencies (repo : list SourceFile) (f : SourceFile) : list string :=
  flat_map (λ spec,
              if is_relative spec then
                filter (λ c, existsb (λ g, String.eqb c (path g)) repo = true) (resolve f spec)
              else []) (imports f).

(** Boolean form of the independence of a tree. *)
Definition independent (repo : list SourceFile) : bool :=
  forallb (λ f, forallb (λ spec, negb (resolves_in repo f spec)) (imports f)) repo.

End Imports.

(** ** Series of dispatches on the Immer users reducer
       (question4/question.tsx, second document: [UserComponent]) *)
Module UserDispatch.
Import ImmerUsers.

(** [dispatch] called with each action in turn. *)
Definition dispatch_all (s : State) (acts : list Action) : State :=
  foldl reducer s acts.

(** The payloads of the [add_user] actions of a series, in order. *)
Definition added (acts : list Action) : list User :=
  omap (λ a, match a with add_user p => Some p | update_user _ => None end) acts.

(** The ids of the users, in array order. *)
Definition ids (s : State) : list Z := id <$> users s.

(** A state whose ids are pairwise distinct. *)
Definition distinct_users : State :=
  {| users := [ {| id := 1; name := "Ann" |}; {| id := 2; name := "Bob" |} ] |}.

End UserDispatch.

(** ** unnamed/part_001 and question24/question-solution.tsx:
       [handleChange] of the form hooks *)
Module FormChange.
Import FormValidation.

(** The form state as the JavaScript object it is: [handleChange] writes
    under a computed key, which need not be one of the three fields. *)
Abbreviation FormObject := (gmap string string).

Definition object_of (f : FormState) : FormObject :=
  {[ "name" := name f; "email" := email f; "password" := password f ]}.

(** The three fields the hook reads.  A property that is missing reads as
    [undefined], which [!] and the inputs treat like the empty string. *)
Definition state_of (o : FormObject) : FormState :=
  {| name := default "" (o !! "name");
     email := default "" (o !! "email");
     password := default "" (o !! "password") |}.

(** [setForm((prevForm) => ({ ...prevForm, [name]: value }))], with [name]
    and [value] taken from the input that fired the event. *)
Definition handleChange (prevForm : FormObject) (name value : string) : FormObject :=
  <[name := value]> prevForm.

(** A series of change events, each an input name with the value typed. *)
Definition changes (o : FormObject) (events : list (string * string)) : FormObject :=
  foldl (λ o e, handleChange o e.1 e.2) o events.

(** The value of the last event fired by the input called [k]. *)
Definition last_value (k : string) (events : list (string * string)) : option string :=
  snd <$> last (filter (λ e, e.1 = k) events).

(** What the field [k] holds after the events. *)
Definition effective (o : FormObject) (events : list (string * string)) (k : string)
  : string :=
  default (default "" (o !! k)) (last_value k events).

End FormChange.

(** ** unnamed/part_003: the counter under a series of dispatches *)
Module CounterSeries.
Import Counter.

(** What one action adds to the count. *)
Definition delta (a : Action) : Z :=
  match a with
  | increment => 1
  | decrement => -1
  end.

(** Increments minus decrements of a series. *)
Definition net (acts : list Action) : Z := foldr (λ a z, (delta a + z)%Z) 0%Z acts.

End CounterSeries.

(** ** question20/question-solution.tsx, second document: series of
       throttled calls and the [ThrottledResize] component *)
Module ThrottleSeries.
Import Throttle.

(** A series of calls of the throttled function; each call comes with its
    time and with what the callback does when it runs at that time (the
    callback may read the environment, as [handleResize] reads the window
    size). *)
Definition timed_calls (W : Type) (delay : Z) (cs : list (Z * (W → W)))
           (lastCall : Ref) (w : W) : Ref * W :=
  foldl (λ rw c, throttled W c.2 delay c.1 rw.1 rw.2) (lastCall, w) cs.

(** A callback that notes the time at which it runs. *)
Definition noting (t : Z) : Z * (list Z → list Z) := (t, λ log, (log ++ [t])%list).

(** The times at which the callback ran, for calls at the given times. *)
Definition log_calls (delay : Z) (times : list Z) (lastCall : Ref) : Ref * list Z :=
  timed_calls (list Z) delay (noting <$> times) lastCall [].

(** Consecutive entries are at least [delay] apart. *)
Definition spaced (delay : Z) (l : list Z) : Prop :=
  ∀ i a b, l !! i = Some a → l !! S i = Some b → (delay <= b - a)%Z.

(** [{ width, height }] of the window. *)
Record Size := mkSize { width : Z; height : Z }.

(** The callback of [ThrottledResize], run when the window has size [sz]:
    [setWindowSize({ width: window.innerWidth, height: window.innerHeight })]. *)
Definition handleResize (e : Z * Size) : Z * (Size → Size) := (e.1, λ _, e.2).

(** Resize events, each with its time and the size the window has then,
    handled by the throttled [handleResize] (throttle of 1000 ms in the
    component). *)
Definition resizes (delay : Z) (events : list (Z * Size)) (lastCall : Ref)
           (windowSize : Size) : Ref * Size :=
  timed_calls Size delay (handleResize <$> events) lastCall windowSize.

End ThrottleSeries.

(** ** question20/question-solution.tsx, second document: typing into
       the input of [DebouncedInput] *)
Module DebounceTyping.
Import Debounce.

(** A keystroke at time [k.1] that brings the input to the value [k.2]:
    time passes until then, and the component renders with the new value. *)
Definition keystroke (delay : Z) (hb : Hook * Browser) (k : Z * string)
  : Hook * Browser :=
  let hb' := elapse k.1 hb.1 hb.2 in
  render k.2 delay hb'.1 hb'.2.

Definition typing (delay : Z) (hb : Hook * Browser) (keys : list (Z * string))
  : Hook * Browser :=
  foldl (keystroke delay) hb keys.

(** A burst: every keystroke changes the value and comes less than [delay]
    after the one before it (the first, after the time [t] at which the
    value [v] was rendered). *)
Fixpoint burst (delay t : Z) (v : string) (keys : list (Z * string)) : Prop :=
  match keys with
  | [] => True
  | k :: keys' =>
      (t <= k.1 < t + delay)%Z ∧ k.2 ≠ v ∧ burst delay k.1 k.2 keys'
  end.

(** The hook between two keystrokes of a burst: [shown] is still the
    debounced value, the one timeout pending is for the value [v] rendered
    at time [t]. *)
Definition waiting (shown v : string) (delay t : Z) (n : nat) : Hook * Browser :=
  ({| debouncedValue := shown; deps := (v, delay); handler := n |},
   {| now := t; timers := [mkTimer n (t + timeout_delay delay) v]; next_handle := S n |}).

End DebounceTyping.

(** ** question16/question-solution.tsx: requests of [useFetch] settling
       one after the other, and [DataFetchingComponent] *)
Module FetchSeries.
Import UseFetch.

(** The hook starts one request per [url] it is rendered with and has no
    guard against an earlier request settling late: [fetchData] resumes for
    each request when it settles, in the order in which they settle. *)
Definition settle_all {T : Type} (st : FetchState T) (rs : list (Settled (Response T)))
  : FetchState T :=
  foldl fetchData st rs.

(** The data a request delivered, when it went through. *)
Definition delivered {T : Type} (r : Settled (Response T)) : option T :=
  match r with
  | resolved response =>
      if ok response then
        match json response with
        | resolved d => Some d
        | rejected _ => None
        end
      else None
  | rejected _ => None
  end.

(** [DataFetchingComponent]: [Loading...], or [Error: ] followed by the
    message, or the list of the items ([data && data.map(...)] renders
    nothing for [null]). *)
Definition render (st : FetchState (list string)) : View string :=
  if loading st then LoadingView
  else if error_truthy (error st) then ErrorView ("Error: " ++ default "" (error st))
  else ListView (default [] (data st)).

End FetchSeries.

(** ** unnamed/part_000: several writes through [useLocalStorage] *)
Module StorageSeries.
Import LocalStorage.

(** Two hooks, or one hook used twice: [setValue] under [k1], then under
    [k2], on the same storage. *)
Definition write_twice (value : Type) (JSON_stringify : value → option string)
           (quota : Storage → bool) (k1 k2 : string) (v1 v2 : value) (w : World)
  : World :=
  (setValue value JSON_stringify quota k2 v2 {| storedValue := v2 |}
     (setValue value JSON_stringify quota k1 v1 {| storedValue := v1 |} w).2).2.

End StorageSeries.

(** * Properties *)

Lemma truthy_false (s : string) : truthy s = false ↔ s = "".
Proof.
  unfold truthy. rewrite negb_false_iff. apply String.eqb_eq.
Qed.

Lemma truthy_true (s : string) : truthy s = true ↔ s ≠ "".
Proof.
  unfold truthy. rewrite negb_true_iff. apply String.eqb_neq.
Qed.

(** ** The Immer users reducer *)
Module ImmerUsersProps.
Import ImmerUsers.

Lemma find_user_Some (p : User) (us : list User) (i : nat) (u : User) :
  find_user p us = Some (i, u) ↔
  us !! i = Some u ∧ id u = id p ∧
  ∀ j v, us !! j = Some v → j < i → id v ≠ id p.
Proof. unfold find_user. rewrite list_find_Some. reflexivity. Qed.

Lemma find_user_None (p : User) (us : list User) :
  find_user p us = None ↔ ∀ u, u ∈ us → id u ≠ id p.
Proof.
  unfold find_user. rewrite list_find_None, Forall_forall. reflexivity.
Qed.

Lemma find_user_is_Some (p : User) (us : list User) :
  (∃ u, u ∈ us ∧ id u = id p) → is_Some (find_user p us).
Proof.
  intros (u & Hin & Hid).
  destruct (find_user p us) as [r|] eqn:E; [eauto|].
  exfalso. by apply (proj1 (find_user_None p us) E u).
Qed.

(** C8.  The reducer is a total function.  [add_user] appends the payload
    and keeps every existing user.  [update_user] returns the state
    unchanged when no user has the payload's id; when some user has it, the
    first such user gets the payload's name and keeps its id, and every
    other position of the array, later users with the same id included, is
    unchanged. *)
Theorem reducer_frame (s : State) (a : Action) :
  match a with
  | add_user p => users (reducer s a) = (users s ++ [p])%list
  | update_user p =>
      ((∀ u, u ∈ users s → id u ≠ id p) → reducer s a = s) ∧
      ((∃ u, u ∈ users s ∧ id u = id p) →
       ∃ i u,
         users s !! i = Some u ∧ id u = id p ∧
         (∀ j v, users s !! j = Some v → j < i → id v ≠ id p) ∧
         users (reducer s a) = <[i := {| id := id u; name := name p |}]> (users s) ∧
         users (reducer s a) !! i = Some {| id := id u; name := name p |} ∧
         length (users (reducer s a)) = length (users s) ∧
         ∀ j, j ≠ i → users (reducer s a) !! j = users s !! j)
  end.
Proof.
  destruct a as [p|p]; simpl; [reflexivity|]. split.
  - intros Hno. by rewrite (proj2 (find_user_None p (users s)) Hno).
  - intros Hex. destruct (find_user_is_Some p (users s) Hex) as [[i u] E].
    rewrite E. simpl. destruct (proj1 (find_user_Some p (users s) i u) E) as (Hi & Hid & Hfirst).
    exists i, u. repeat split; try done.
    + apply list_lookup_insert_eq. by eapply lookup_lt_Some.
    + apply length_insert.
    + intros j Hj. by apply list_lookup_insert_ne.
Qed.

Lemma reducer_frame_witness :
  reducer sample_users (update_user {| id := 7; name := "Zed" |}) = sample_users ∧
  ∃ i u,
    users sample_users !! i = Some u ∧ id u = 2%Z ∧
    (∀ j v, users sample_users !! j = Some v → j < i → id v ≠ 2%Z) ∧
    users (reducer sample_users (update_user {| id := 2; name := "Zed" |}))
    = <[i := {| id := id u; name := "Zed" |}]> (users sample_users) ∧
    users (reducer sample_users (update_user {| id := 2; name := "Zed" |})) !! i
    = Some {| id := id u; name := "Zed" |} ∧
    length (users (reducer sample_users (update_user {| id := 2; name := "Zed" |})))
    = length (users sample_users) ∧
    ∀ j, j ≠ i →
         users (reducer sample_users (update_user {| id := 2; name := "Zed" |})) !! j
         = users sample_users !! j.
Proof.
  split.
  - apply (reducer_frame sample_users (update_user {| id := 7; name := "Zed" |})).
    intros u Hu. simpl in Hu.
    repeat (apply elem_of_cons in Hu as [->|Hu]; [simpl; lia|]).
    by apply elem_of_nil in Hu.
  - apply (reducer_frame sample_users (update_user {| id := 2; name := "Zed" |})).
    exists {| id := 2; name := "Bob" |}. split; [|reflexivity].
    simpl. apply elem_of_cons. right. apply elem_of_cons. by left.
Defined.

Example update_first_match_only :
  users (reducer sample_users (update_user {| id := 2; name := "Zed" |}))
  = [ {| id := 1; name := "Ann" |};
      {| id := 2; name := "Zed" |};
      {| id := 2; name := "Cid" |} ].
Proof. reflexivity. Qed.

End ImmerUsersProps.

(** ** The form-validation hook *)
Module FormValidationProps.
Import FormValidation.

Lemma Object_keys_length (o : Errors) : length (Object_keys o) = size o.
Proof. unfold Object_keys. by rewrite length_fmap, length_map_to_list. Qed.

(** What [newErrors] holds under each key. *)
Lemma newErrors_lookup (f : FormState) (k : string) :
  newErrors_of f !! k =
  if decide (k = "name") then
    if truthy (name f) then None else Some "Name is required"
  else if decide (k = "email") then
    if truthy (email f) then None else Some "Email is required"
  else if decide (k = "password") then
    if truthy (password f) then None else Some "Password is required"
  else None.
Proof.
  unfold newErrors_of.
  destruct (truthy (name f)), (truthy (email f)), (truthy (password f));
    simpl; repeat case_decide; subst; try done;
    by simplify_map_eq.
Qed.

Lemma newErrors_empty (f : FormState) :
  size (newErrors_of f) = 0 ↔ all_filled f.
Proof.
  unfold all_filled. rewrite <- !truthy_true, map_size_empty_iff.
  split.
  - intros He.
    pose proof (newErrors_lookup f "name") as Hn.
    pose proof (newErrors_lookup f "email") as Hm.
    pose proof (newErrors_lookup f "password") as Hp.
    rewrite He, lookup_empty in Hn, Hm, Hp. simpl in *.
    repeat split.
    + by destruct (truthy (name f)).
    + by destruct (truthy (email f)).
    + by destruct (truthy (password f)).
  - intros (Hn & Hm & Hp). apply map_eq. intros k.
    rewrite newErrors_lookup, Hn, Hm, Hp, lookup_empty.
    by repeat case_decide.
Qed.

(** C9.  [validate] returns [true] exactly when the three fields are
    non-empty; the errors it stores carry a message under exactly the keys
    of the empty fields and under no other key, and leave the form alone;
    [handleSubmit] prevents the default action and invokes the callback
    once when every field is non-empty and not at all otherwise. *)
Theorem validate_handleSubmit_spec (h : Hook) :
  ((validate h).2 = true ↔ all_filled (form h)) ∧
  form (validate h).1 = form h ∧
  (is_Some (errors (validate h).1 !! "name") ↔ name (form h) = "") ∧
  (is_Some (errors (validate h).1 !! "email") ↔ email (form h) = "") ∧
  (is_Some (errors (validate h).1 !! "password") ↔ password (form h) = "") ∧
  (∀ k, is_Some (errors (validate h).1 !! k) →
        k = "name" ∨ k = "email" ∨ k = "password") ∧
  hook (handleSubmit h) = (validate h).1 ∧
  defaultPrevented (handleSubmit h) = true ∧
  (callbackCalls (handleSubmit h) = 1 ↔ all_filled (form h)) ∧
  (callbackCalls (handleSubmit h) = 0 ↔ ¬ all_filled (form h)).
Proof.
  assert (Hok : (validate h).2 = true ↔ all_filled (form h)).
  { unfold validate. simpl. rewrite Nat.eqb_eq, Object_keys_length.
    apply newErrors_empty. }
  assert (Herr : errors (validate h).1 = newErrors_of (form h)) by reflexivity.
  assert (Hsub : handleSubmit h =
                 {| hook := (validate h).1; defaultPrevented := true;
                    callbackCalls := if (validate h).2 then 1 else 0 |}).
  { unfold handleSubmit. by destruct (validate h) as [h' []]. }
  assert (Hform : form (validate h).1 = form h) by reflexivity.
  rewrite Hsub, Herr, Hform, !newErrors_lookup.
  generalize dependent (validate h).2. intros ok Hok _.
  generalize dependent (validate h).1. intros h' _ _.
  simpl.
  repeat apply conj; try done.
  - by apply Hok.
  - by apply Hok.
  - destruct (truthy (name (form h))) eqn:E; [by intros ?%is_Some_None|].
    intros _. by apply truthy_false.
  - intros Hs. apply truthy_false in Hs. by rewrite Hs.
  - destruct (truthy (email (form h))) eqn:E; [by intros ?%is_Some_None|].
    intros _. by apply truthy_false.
  - intros Hs. apply truthy_false in Hs. by rewrite Hs.
  - destruct (truthy (password (form h))) eqn:E; [by intros ?%is_Some_None|].
    intros _. by apply truthy_false.
  - intros Hs. apply truthy_false in Hs. by rewrite Hs.
  - intros k. rewrite newErrors_lookup.
    repeat case_decide; auto. by intros ?%is_Some_None.
  - destruct ok; [intros _; by apply Hok | done].
  - intros Hall. apply Hok in Hall. by rewrite Hall.
  - destruct ok; [done|]. intros _ Hall. by apply Hok in Hall.
  - intros Hn. destruct ok; [|done]. exfalso. apply Hn. by apply Hok.
Qed.

Example submit_with_empty_email :
  let h := {| form := mkForm "Ada" "" "secret"; errors := ∅ |} in
  errors (hook (handleSubmit h)) = {[ "email" := "Email is required" ]} ∧
  callbackCalls (handleSubmit h) = 0.
Proof. split; reflexivity. Qed.

End FormValidationProps.

(** ** Round trips: the counter reducer and [useLocalStorage] *)
Module RoundTripProps.
Import Counter LocalStorage.

Lemma round_double_exact (z : Z) : (Z.abs z <= 2 ^ 53)%Z → round_double z = z.
Proof.
  intros Hz. unfold round_double. cbv zeta.
  destruct (Z.abs z <=? 2 ^ 53)%Z eqn:E; [reflexivity|].
  apply Z.leb_gt in E. lia.
Qed.

Lemma increment_then_decrement : inverse_on safe increment decrement.
Proof.
  intros [c] Hs. unfold safe in Hs. simpl in *. unfold js_sub, js_add.
  rewrite (round_double_exact (c + 1)) by lia.
  rewrite round_double_exact by lia. f_equal. lia.
Qed.

Lemma decrement_then_increment : inverse_on safe decrement increment.
Proof.
  intros [c] Hs. unfold safe in Hs. simpl in *. unfold js_sub, js_add.
  rewrite (round_double_exact (c - 1)) by lia.
  rewrite round_double_exact by lia. f_equal. lia.
Qed.

(** The counts the component can reach stay safe for any realistic number
    of clicks: after [n] dispatches from [0] the magnitude is at most [n]. *)
Lemma dispatch_all_bound (acts : list Action) :
  (Z.of_nat (length acts) < 2 ^ 53)%Z →
  (Z.abs (count (dispatch_all initialState acts)) <= Z.of_nat (length acts))%Z.
Proof.
  unfold dispatch_all.
  induction acts as [|a acts IH] using rev_ind; [simpl; lia|].
  rewrite length_app, foldl_app. simpl. intros Hlen.
  assert (Hb : (Z.abs (count (foldl reducer initialState acts))
                <= Z.of_nat (length acts))%Z) by (apply IH; lia).
  destruct a; simpl; unfold js_add, js_sub;
    rewrite round_double_exact by lia; lia.
Qed.

Lemma dispatch_all_safe (acts : list Action) :
  (Z.of_nat (length acts) < 2 ^ 53)%Z → safe (dispatch_all initialState acts).
Proof.
  intros Hlen. unfold safe. pose proof (dispatch_all_bound acts Hlen). lia.
Qed.

(** Outside the safe integers the pair is not an inverse pair: at [2^53]
    the increment is absorbed by rounding. *)
Example increment_absorbed :
  reducer (reducer {| count := 2 ^ 53 |} increment) decrement
  = {| count := 2 ^ 53 - 1 |}.
Proof. reflexivity. Qed.

Section Runtime.

Variable value : Type.
Variable JSON_stringify : value → option string.
Variable JSON_parse : string → option value.
Variable quota : Storage → bool.

(** [JSON.parse("")] throws. *)
Hypothesis JSON_parse_empty : JSON_parse "" = None.

Lemma setValue_stores (key : string) (v : value) (h : Hook value) (w : World) (s : string) :
  JSON_stringify v = Some s →
  quota (<[key := s]> (localStorage w)) = true →
  setValue value JSON_stringify quota key v h w
  = ({| storedValue := v |},
     {| localStorage := <[key := s]> (localStorage w); console := console w |}).
Proof.
  intros Hs Hq. unfold setValue, setItem. by rewrite Hs, Hq.
Qed.

Lemma read_after_write (key : string) (v initialValue : value) (h : Hook value)
      (w : World) (s : string) :
  JSON_stringify v = Some s →
  JSON_parse s = Some v →
  quota (<[key := s]> (localStorage w)) = true →
  readStored value JSON_parse key initialValue
             (setValue value JSON_stringify quota key v h w).2 = v.
Proof.
  intros Hs Hp Hq. rewrite (setValue_stores key v h w s Hs Hq). simpl.
  unfold readStored, getItem. simpl. rewrite lookup_insert_eq.
  destruct (truthy s) eqn:E.
  - by rewrite Hp.
  - apply truthy_false in E. subst s. congruence.
Qed.

End Runtime.

(** The claim that the repository has no round trip fails on both pairs it
    names: [decrement] undoes [increment] on the safe integers, and a value
    written by [setValue] is the value read back. *)
Lemma round_trip_free_refuted :
  ¬ (∀ a b : Action, ¬ inverse_on safe a b) ∧
  ¬ (∀ v : Json,
       readStored Json parse "name" JNull
         (setValue Json stringify unlimited "name" v {| storedValue := JNull |}
                   emptyWorld).2 ≠ v).
Proof.
  split; intros H.
  - exact (H increment decrement increment_then_decrement).
  - apply (H (JNum 42)). vm_compute. reflexivity.
Qed.

(** C1, amended.  Round trips do hold.  On the safe integers [decrement]
    undoes [increment] and [increment] undoes [decrement], and the counts
    reached from [0] by fewer than [2^53] dispatches are safe.  For every value
    that survives [JSON.stringify] followed by [JSON.parse], when the
    storage accepts the write, [setValue] stores the JSON text under the key
    and keeps the value in memory, and the hook reads the same value back
    from the storage on its next mount. *)
Theorem round_trips_hold :
  inverse_on safe increment decrement ∧
  inverse_on safe decrement increment ∧
  (∀ acts : list Action,
     (Z.of_nat (length acts) < 2 ^ 53)%Z → safe (dispatch_all initialState acts)) ∧
  ∀ (value : Type) (JSON_stringify : value → option string)
    (JSON_parse : string → option value) (quota : Storage → bool)
    (key : string) (v initialValue : value) (h : Hook value) (w : World)
    (s : string),
    JSON_parse "" = None →
    JSON_stringify v = Some s →
    JSON_parse s = Some v →
    quota (<[key := s]> (localStorage w)) = true →
    storedValue (setValue value JSON_stringify quota key v h w).1 = v ∧
    getItem (localStorage (setValue value JSON_stringify quota key v h w).2) key
    = Some s ∧
    storedValue
      (useLocalStorage value JSON_parse key initialValue
         (setValue value JSON_stringify quota key v h w).2) = v.
Proof.
  split; [exact increment_then_decrement|].
  split; [exact decrement_then_increment|].
  split; [exact dispatch_all_safe|].
  intros value JSON_stringify JSON_parse quota key v initialValue h w s
         Hempty Hs Hp Hq.
  split; [|split].
  - by rewrite (setValue_stores value JSON_stringify quota key v h w s Hs Hq).
  - rewrite (setValue_stores value JSON_stringify quota key v h w s Hs Hq).
    unfold getItem. simpl. apply lookup_insert_eq.
  - unfold useLocalStorage. simpl.
    by apply (read_after_write value JSON_stringify JSON_parse quota Hempty
                key v initialValue h w s).
Qed.

Lemma round_trips_hold_witness :
  reducer (reducer {| count := 41 |} increment) decrement = {| count := 41 |} ∧
  reducer (reducer {| count := -7 |} decrement) increment = {| count := -7 |} ∧
  safe (dispatch_all initialState [increment; increment; decrement]) ∧
  storedValue (setValue Json stringify unlimited "name" (JNum 42)
                        {| storedValue := JNull |} emptyWorld).1 = JNum 42 ∧
  getItem (localStorage (setValue Json stringify unlimited "name" (JNum 42)
                                  {| storedValue := JNull |} emptyWorld).2) "name"
  = Some "42" ∧
  storedValue
    (useLocalStorage Json parse "name" JNull
       (setValue Json stringify unlimited "name" (JNum 42)
                 {| storedValue := JNull |} emptyWorld).2) = JNum 42.
Proof.
  split; [|split; [|split]].
  - apply (proj1 round_trips_hold {| count := 41 |}). unfold safe. simpl. lia.
  - apply (proj1 (proj2 round_trips_hold) {| count := -7 |}). unfold safe. simpl. lia.
  - apply (proj1 (proj2 (proj2 round_trips_hold)) [increment; increment; decrement]).
    simpl. lia.
  - apply (proj2 (proj2 (proj2 round_trips_hold)) Json stringify parse unlimited "name"
             (JNum 42) JNull {| storedValue := JNull |} emptyWorld "42");
      reflexivity.
Defined.

(** A write the storage refuses changes the value in memory only, so the
    next mount does not read it back. *)
Example refused_write_is_not_read_back :
  let r := setValue Json stringify (λ _, false) "name" (JNum 42)
                    {| storedValue := JNull |} emptyWorld in
  storedValue r.1 = JNum 42 ∧
  r.2 = {| localStorage := ∅; console := [QuotaExceededError] |} ∧
  storedValue (useLocalStorage Json parse "name" JNull r.2) = JNull.
Proof. repeat split. Qed.

End RoundTripProps.

(** ** The XState toggle machine *)
Module ToggleProps.
Import Toggle.

Lemma transition_toggleMachine (state event : string) :
  transition toggleMachine state event =
  if decide (event = "TOGGLE") then toggled state else state.
Proof.
  unfold transition, toggled, toggleMachine. simpl.
  rewrite lookup_insert. case_decide as H1.
  - subst. rewrite lookup_singleton. repeat case_decide; congruence.
  - rewrite lookup_singleton. case_decide as H2.
    + subst. rewrite lookup_singleton. repeat case_decide; congruence.
    + repeat case_decide; congruence.
Qed.

Lemma toggleMachine_well_formed : is_state_machine toggleMachine.
Proof.
  split.
  - by eexists.
  - unfold toggleMachine; simpl.
    apply map_Forall_insert_2.
    + apply map_Forall_singleton. by eexists.
    + apply map_Forall_singleton. apply map_Forall_singleton. by eexists.
Qed.

Lemma toggled_involutive (state : string) : toggled (toggled state) = state.
Proof. unfold toggled. repeat case_decide; congruence. Qed.

Lemma foldl_transition (events : list string) (state : string) :
  foldl (transition toggleMachine) state events =
  if Nat.even (toggles events) then state else toggled state.
Proof.
  revert state. induction events as [|e events IH]; intros state; [done|].
  simpl. rewrite IH, transition_toggleMachine. unfold toggles.
  rewrite filter_cons. case_decide as He; [|done].
  cbn [length]. rewrite Nat.even_succ, <- Nat.negb_even.
  destruct (Nat.even _); simpl; [done|]. apply toggled_involutive.
Qed.

(** The claim that no snippet defines a state machine fails on the
    [toggleMachine] of the patterns document. *)
Lemma no_state_machine_refuted :
  ¬ (∀ m : MachineConfig, m ∈ [toggleMachine] → ¬ is_state_machine m).
Proof.
  intros H. apply (H toggleMachine).
  - apply list_elem_of_singleton. reflexivity.
  - exact toggleMachine_well_formed.
Qed.

(** C2, amended.  The patterns document defines one state machine, the
    XState [toggleMachine]: its named states are [inactive] and [active],
    it starts in [inactive], the event [TOGGLE] leads from each state to the
    other and any other event leaves the state as it is; hence after a
    series of events the machine is in [inactive] exactly when the series
    has an even number of [TOGGLE]s. *)
Theorem toggleMachine_is_state_machine :
  is_state_machine toggleMachine ∧
  dom (states toggleMachine) = ({[ "inactive"; "active" ]} : gset string) ∧
  initial toggleMachine = "inactive" ∧
  (∀ state event,
     transition toggleMachine state event =
     if decide (event = "TOGGLE") then toggled state else state) ∧
  toggled "inactive" = "active" ∧
  toggled "active" = "inactive" ∧
  ∀ events,
    run toggleMachine events =
    if Nat.even (toggles events) then "inactive" else "active".
Proof.
  split; [exact toggleMachine_well_formed|].
  split; [unfold toggleMachine; simpl; by rewrite dom_insert_L, dom_singleton_L|].
  split; [reflexivity|].
  split; [exact transition_toggleMachine|].
  split; [reflexivity|]. split; [reflexivity|].
  intros events. unfold run. rewrite foldl_transition. reflexivity.
Qed.

Example toggle_three_times :
  run toggleMachine ["TOGGLE"; "RESET"; "TOGGLE"; "TOGGLE"] = "active".
Proof. reflexivity. Qed.

End ToggleProps.

(** ** Throttling, debouncing and the [isMounted] flag *)
Module ThrottleProps.
Import Throttle.

Section Callback.

Variable W : Type.
Variable callback : W → W.

Lemma throttled_suppressed (delay now : Z) (r : Ref) (w : W) :
  (now - current r < delay)%Z → throttled W callback delay now r w = (r, w).
Proof.
  intros H. unfold throttled.
  destruct (delay <=? now - current r)%Z eqn:E; [|done].
  apply Z.leb_le in E. lia.
Qed.

Lemma throttled_invoked (delay now : Z) (r : Ref) (w : W) :
  (delay <= now - current r)%Z →
  throttled W callback delay now r w = ({| current := now |}, callback w).
Proof.
  intros H. unfold throttled.
  destruct (delay <=? now - current r)%Z eqn:E; [done|].
  apply Z.leb_gt in E. lia.
Qed.

Lemma calls_suppressed (delay : Z) (times : list Z) (r : Ref) (w : W) :
  Forall (λ t, (t - current r < delay)%Z) times →
  calls W callback delay times r w = (r, w).
Proof.
  unfold calls. induction 1 as [|t times Ht _ IH]; [done|].
  simpl. by rewrite throttled_suppressed.
Qed.

End Callback.

(** Calls that all fall in a window shorter than [delay] invoke the
    callback, here a counter, at most once. *)
Lemma calls_in_window (delay t0 : Z) (times : list Z) (r : Ref) (n : nat) :
  Forall (λ t, (t0 <= t < t0 + delay)%Z) times →
  ((calls nat S delay times r n).2 ≤ S n)%nat.
Proof.
  revert r n. induction times as [|t times IH]; intros r n Hw; [simpl; lia|].
  apply Forall_cons in Hw as [Ht Hw]. unfold calls in *. simpl.
  destruct (decide (delay <= t - current r)%Z) as [Hd|Hd].
  - rewrite throttled_invoked by done. simpl.
    fold (calls nat S delay times {| current := t |} (S n)).
    rewrite calls_suppressed; [simpl; lia|].
    eapply Forall_impl; [exact Hw|]. simpl. intros; lia.
  - rewrite throttled_suppressed by lia. simpl. apply IH. done.
Qed.

End ThrottleProps.

Module DebounceProps.
Import Debounce.

Lemma timeout_delay_fits (delay : Z) :
  (0 <= delay < 2 ^ 31)%Z → timeout_delay delay = delay.
Proof.
  intros Hd. unfold timeout_delay.
  destruct (0 <=? delay)%Z eqn:E1; [|apply Z.leb_gt in E1; lia].
  destruct (delay <? 2 ^ 31)%Z eqn:E2; [done|apply Z.ltb_ge in E2; lia].
Qed.

Lemma timeout_delay_nonneg (delay : Z) : (0 <= timeout_delay delay)%Z.
Proof.
  unfold timeout_delay.
  destruct (0 <=? delay)%Z eqn:E1; [|simpl; lia].
  apply Z.leb_le in E1. destruct (delay <? 2 ^ 31)%Z; simpl; lia.
Qed.

Lemma clearTimeout_handler (h : Hook) (b : Browser) :
  pending_latest (h, b) → timers (clearTimeout b (handler h)) = [].
Proof.
  intros [_ Hall]. simpl in *. unfold clearTimeout. simpl.
  induction Hall as [|tm tms [Hh _] _ IH]; [done|].
  rewrite filter_cons. case_decide; [done|]. exact IH.
Qed.

Lemma mount_pending (value : string) (delay t0 : Z) :
  pending_latest (mount value delay (freshBrowser t0)).
Proof.
  unfold pending_latest, mount, effect. simpl. split; [lia|].
  repeat constructor.
Qed.

Lemma render_changed (value : string) (delay : Z) (h : Hook) (b : Browser) :
  pending_latest (h, b) →
  deps h ≠ (value, delay) →
  render value delay h b =
  ({| debouncedValue := debouncedValue h; deps := (value, delay);
      handler := next_handle b |},
   {| now := now b;
      timers := [mkTimer (next_handle b) (now b + timeout_delay delay) value];
      next_handle := S (next_handle b) |}).
Proof.
  intros Hp Hd. unfold render. case_decide; [done|].
  unfold effect, setTimeout. rewrite (clearTimeout_handler h b Hp). done.
Qed.

Lemma render_pending (value : string) (delay : Z) (h : Hook) (b : Browser) :
  pending_latest (h, b) → pending_latest (render value delay h b).
Proof.
  intros Hp. destruct (decide (deps h = (value, delay))) as [Hd|Hd].
  - unfold render. by case_decide.
  - rewrite render_changed by done. split; simpl; [lia|]. repeat constructor.
Qed.

Lemma fired_keeps (h : Hook) (fired : list Timer) :
  let h' := foldl (λ h tm, {| debouncedValue := captured tm; deps := deps h;
                               handler := handler h |}) h fired in
  deps h' = deps h ∧ handler h' = handler h ∧
  (debouncedValue h' = debouncedValue h ∨
   ∃ tm, tm ∈ fired ∧ debouncedValue h' = captured tm).
Proof.
  revert h. induction fired as [|tm fired IH]; intros h; simpl; [auto|].
  destruct (IH {| debouncedValue := captured tm; deps := deps h; handler := handler h |})
    as (Hd & Hh & Hv). simpl in *. repeat split; try done.
  right. destruct Hv as [Hv|(tm' & Hin & Hv)].
  - exists tm. split; [apply elem_of_cons; by left|done].
  - exists tm'. split; [apply elem_of_cons; by right|done].
Qed.

Lemma elapse_pending (t : Z) (h : Hook) (b : Browser) :
  pending_latest (h, b) → pending_latest (elapse t h b).
Proof.
  intros [Hlen Hall]. simpl in *. unfold elapse, pending_latest. simpl.
  destruct (fired_keeps h (filter (λ tm, (due tm <= Z.max t (now b))%Z) (timers b)))
    as (Hd & Hh & _).
  rewrite Hd, Hh. split.
  - etrans; [apply length_filter|done].
  - rewrite Forall_forall in Hall. apply Forall_forall.
    intros tm Hin. apply list_elem_of_filter in Hin as [_ Hin]. by apply Hall.
Qed.

Lemma elapse_latest (t : Z) (h : Hook) (b : Browser) :
  pending_latest (h, b) →
  debouncedValue (elapse t h b).1 = debouncedValue h ∨
  debouncedValue (elapse t h b).1 = (deps h).1.
Proof.
  intros [_ Hall]. simpl in *. unfold elapse. simpl.
  destruct (fired_keeps h (filter (λ tm, (due tm <= Z.max t (now b))%Z) (timers b)))
    as (_ & _ & [Hv|(tm & Hin & Hv)]); [by left|right].
  rewrite Hv. apply list_elem_of_filter in Hin as [_ Hin].
  rewrite Forall_forall in Hall. by apply Hall.
Qed.

(** What passing time does: a pending timeout that is due fires, applies
    the latest value and leaves the queue; otherwise nothing changes but
    the clock. *)
Lemma elapse_exact (t : Z) (h : Hook) (b : Browser) :
  pending_latest (h, b) →
  elapse t h b =
  ({| debouncedValue := if is_due t b then (deps h).1 else debouncedValue h;
      deps := deps h; handler := handler h |},
   {| now := Z.max t (now b);
      timers := if is_due t b then [] else timers b;
      next_handle := next_handle b |}).
Proof.
  intros [Hlen Hall]. destruct h as [dv dp hd], b as [nw tms nh]. simpl in *.
  unfold elapse, is_due. simpl.
  destruct tms as [|tm [|tm' tms]]; [done| |simpl in Hlen; lia].
  apply Forall_cons in Hall as [[_ Hc] _]. simpl in *.
  rewrite !filter_cons, !filter_nil, orb_false_r.
  destruct (Z.leb_spec (due tm) (Z.max t nw)); repeat case_decide; try lia.
  - simpl. by rewrite Hc.
  - done.
Qed.

Lemma steps_pending (events : list Event) (hb : Hook * Browser) :
  pending_latest hb → pending_latest (foldl step hb events).
Proof.
  revert hb. induction events as [|e events IH]; intros [h b] Hp; [done|].
  simpl. apply IH. destruct e; simpl.
  - by apply render_pending.
  - by apply elapse_pending.
Qed.
End DebounceProps.

Module SchedulingProps.

(** The claim that no snippet rate-limits a callback or cancels a scheduled
    action fails on each of the three snippets it names: a throttled call
    within the delay does not run the callback, a render with a new value
    removes the timeout of the previous one, and a fetch that resolves after
    the cleanup does not reach the state. *)
Lemma no_scheduling_refuted :
  ¬ (∀ (delay now : Z) (r : Throttle.Ref) (n : nat),
       (Throttle.throttled nat S delay now r n).2 = S n) ∧
  ¬ (∀ value delay h b tm,
       tm ∈ Debounce.timers b →
       tm ∈ Debounce.timers (Debounce.render value delay h b).2) ∧
  ¬ (∀ c result,
       DataFetching.data (DataFetching.loadData c (resolved result)) = result).
Proof.
  repeat split; intros H.
  - specialize (H 1000%Z 1500%Z {| Throttle.current := 1000 |} 1). discriminate H.
  - specialize (H "ab" 500%Z (Debounce.mount "a" 500 (Debounce.freshBrowser 0)).1
                  (Debounce.mount "a" 500 (Debounce.freshBrowser 0)).2
                  (Debounce.mkTimer 0 500 "a")).
    vm_compute in H.
    assert (Hin : Debounce.mkTimer 0 500 "a" ∈ [Debounce.mkTimer 0 500 "a"])
      by (apply list_elem_of_singleton; reflexivity).
    apply H, list_elem_of_singleton in Hin. discriminate Hin.
  - specialize (H (DataFetching.cleanup DataFetching.mounted) ["x"]).
    discriminate H.
Qed.

(** C3, amended.  Three snippets schedule or cancel.  The function
    [useThrottle] returns runs the callback and records the time exactly
    when at least [delay] milliseconds have passed since the recorded time,
    and does nothing otherwise, so calls within one window shorter than
    [delay] run it at most once.  [useDebounce] keeps at most one timeout
    pending, the one for the latest value: a render with a changed value or
    delay clears the pending timeout and schedules one new timeout for the
    new value, due [delay] milliseconds later when the delay is from [1] to
    [2^31 - 1]; when time passes, a pending timeout that is due fires,
    applies the latest value and leaves nothing pending, and otherwise the
    debounced value and the pending timeout stay as they are; unmounting
    clears what is pending.  In [DataFetchingComponent] a fetch that settles
    after the cleanup leaves the state as it is, while one that resolves
    before it stores the result and clears [loading]. *)
Theorem scheduling_and_cancellation :
  (∀ (W : Type) (callback : W → W) (delay now : Z) (r : Throttle.Ref) (w : W),
     Throttle.throttled W callback delay now r w =
     if decide (delay <= now - Throttle.current r)%Z
     then ({| Throttle.current := now |}, callback w) else (r, w)) ∧
  (∀ (delay t0 : Z) (times : list Z) (r : Throttle.Ref) (n : nat),
     Forall (λ t, (t0 <= t < t0 + delay)%Z) times →
     ((Throttle.calls nat S delay times r n).2 ≤ S n)%nat) ∧
  (∀ (value : string) (delay t0 : Z) (events : list Debounce.Event),
     Debounce.pending_latest
       (foldl Debounce.step (Debounce.mount value delay (Debounce.freshBrowser t0))
              events)) ∧
  (∀ (value : string) (delay : Z) (h : Debounce.Hook) (b : Debounce.Browser),
     Debounce.pending_latest (h, b) →
     Debounce.deps h ≠ (value, delay) →
     ∃ due,
       Debounce.timers (Debounce.render value delay h b).2 =
       [Debounce.mkTimer (Debounce.next_handle b) due value] ∧
       (Debounce.now b <= due)%Z ∧
       ((0 < delay < 2 ^ 31)%Z → due = (Debounce.now b + delay)%Z)) ∧
  (∀ (t : Z) (h : Debounce.Hook) (b : Debounce.Browser),
     Debounce.pending_latest (h, b) →
     Debounce.debouncedValue (Debounce.elapse t h b).1 =
       (if Debounce.is_due t b then (Debounce.deps h).1
        else Debounce.debouncedValue h) ∧
     Debounce.timers (Debounce.elapse t h b).2 =
       (if Debounce.is_due t b then [] else Debounce.timers b)) ∧
  (∀ (h : Debounce.Hook) (b : Debounce.Browser),
     Debounce.pending_latest (h, b) →
     Debounce.timers (Debounce.unmount h b) = []) ∧
  (∀ (c : DataFetching.Component) (r : Settled (list string)),
     DataFetching.loadData (DataFetching.cleanup c) r = DataFetching.cleanup c) ∧
  (∀ result : list string,
     DataFetching.loadData DataFetching.mounted (resolved result) =
     {| DataFetching.data := result; DataFetching.loading := false;
        DataFetching.isMounted := true |}).
Proof.
  repeat apply conj.
  - intros W callback delay now r w. case_decide.
    + by apply ThrottleProps.throttled_invoked.
    + apply ThrottleProps.throttled_suppressed. lia.
  - exact ThrottleProps.calls_in_window.
  - intros value delay t0 events.
    apply DebounceProps.steps_pending, DebounceProps.mount_pending.
  - intros value delay h b Hp Hd.
    exists (Debounce.now b + Debounce.timeout_delay delay)%Z.
    rewrite DebounceProps.render_changed by done. simpl.
    pose proof (DebounceProps.timeout_delay_nonneg delay).
    repeat split; [lia|]. intros Hr.
    rewrite DebounceProps.timeout_delay_fits by lia. done.
  - intros t h b Hp. by rewrite DebounceProps.elapse_exact.
  - intros h b Hp. by apply DebounceProps.clearTimeout_handler.
  - intros c [result|e]; reflexivity.
  - reflexivity.
Qed.

Lemma scheduling_and_cancellation_witness :
  ((Throttle.calls nat S 1000 [1000; 1200; 1999]%Z Throttle.initialRef 0).2 ≤ 1)%nat ∧
  (∃ due,
     Debounce.timers
       (Debounce.render "ab" 500 (Debounce.mount "a" 500 (Debounce.freshBrowser 0)).1
                        (Debounce.mount "a" 500 (Debounce.freshBrowser 0)).2).2
     = [Debounce.mkTimer 1 due "ab"] ∧ due = 500%Z) ∧
  Debounce.debouncedValue
    (foldl Debounce.step (Debounce.mount "a" 500 (Debounce.freshBrowser 0))
           [Debounce.Render "ab" 500; Debounce.Elapse 400]).1 = "a" ∧
  Debounce.debouncedValue
    (foldl Debounce.step (Debounce.mount "a" 500 (Debounce.freshBrowser 0))
           [Debounce.Render "ab" 500; Debounce.Elapse 600]).1 = "ab" ∧
  Debounce.timers
    (foldl Debounce.step (Debounce.mount "a" 500 (Debounce.freshBrowser 0))
           [Debounce.Render "ab" 500; Debounce.Elapse 600]).2 = [] ∧
  Debounce.timers
    (Debounce.unmount (Debounce.mount "a" 500 (Debounce.freshBrowser 0)).1
                      (Debounce.mount "a" 500 (Debounce.freshBrowser 0)).2) = [].
Proof.
  destruct scheduling_and_cancellation
    as (_ & Hwindow & Hreach & Hrender & Helapse & Hunmount & _).
  pose proof (Hreach "a" 500%Z 0%Z []) as Hp. simpl in Hp.
  pose proof (Hreach "a" 500%Z 0%Z [Debounce.Render "ab" 500]) as Hp'.
  split; [|split; [|split; [|split; [|split]]]].
  - apply (Hwindow 1000%Z 1000%Z). repeat constructor; lia.
  - destruct (Hrender "ab" 500%Z _ _ Hp) as (due & Ht & _ & Hdue);
      [simpl; congruence|].
    exists due. split; [exact Ht|]. rewrite Hdue by lia. reflexivity.
  - exact (proj1 (Helapse 400%Z _ _ Hp')).
  - exact (proj1 (Helapse 600%Z _ _ Hp')).
  - exact (proj2 (Helapse 600%Z _ _ Hp')).
  - apply (Hunmount _ _ Hp).
Defined.

Example typing_then_pause :
  let hb := foldl Debounce.step (Debounce.mount "" 500 (Debounce.freshBrowser 0))
                  [Debounce.Render "r" 500; Debounce.Elapse 100;
                   Debounce.Render "re" 500; Debounce.Elapse 300;
                   Debounce.Render "rea" 500; Debounce.Elapse 700;
                   Debounce.Elapse 900] in
  Debounce.debouncedValue hb.1 = "rea" ∧ Debounce.timers hb.2 = [].
Proof. vm_compute. split; reflexivity. Qed.

End SchedulingProps.

(** ** Error handling of the data-fetching snippets *)
Module FetchErrorProps.

(** The claim that every data-fetching snippet records the error message
    and clears [loading] on a failed request, and does nothing else, fails
    three times: [DataFetchingComponent] has an empty catch branch, so a
    rejected fetch leaves [loading] set; the catch branch of the [useFetch]
    of question 16 also discards the data of an earlier successful fetch;
    and the [useFetch] of the patterns document does not read
    [response.ok], so a response that is not ok leaves its error state
    empty. *)
Lemma error_state_only_refuted :
  ¬ (∀ (c : DataFetching.Component) (e : Error),
       DataFetching.loading (DataFetching.loadData c (rejected e)) = false) ∧
  ¬ (∀ (st : UseFetch.FetchState (list string)) (e : Error),
       UseFetch.data (UseFetch.fetchData st (rejected e)) = UseFetch.data st) ∧
  ¬ (∀ (st : PatternUseFetch.State (list string)) (body : Settled (list string)),
       is_Some (PatternUseFetch.error
                  (PatternUseFetch.fetchData st
                     (resolved {| UseFetch.ok := false; UseFetch.json := body |})))).
Proof.
  repeat split; intros H.
  - specialize (H DataFetching.mounted {| message := "Failed to fetch" |}).
    discriminate H.
  - specialize (H {| UseFetch.data := Some ["a"]; UseFetch.loading := false;
                     UseFetch.error := None |}
                  {| message := "Failed to fetch" |}).
    discriminate H.
  - specialize (H PatternUseFetch.initialState (resolved ["Not Found"])).
    simpl in H. by apply is_Some_None in H.
Qed.

(** C4, amended.  Four data-fetching snippets keep an error state of their
    own (the React Query and Apollo examples read the one of the library).
    In three of them a failed request ends with [loading] false and the
    error's message in the error state: [fetchUsers] of the class component
    and of the function component change nothing else (the users are as
    before), and the [useFetch] of question 16 treats a rejected [fetch], a
    response that is not ok and a body that fails to parse alike and
    replaces the whole state, so its data becomes null as well.  In the
    [useFetch] of the patterns document a rejected [fetch] or a body that
    fails to parse ends with [loading] false and the caught error itself in
    the error state, the data being kept; [response.ok] is not read, so a
    response whose body parses counts as a success whether it is ok or not:
    the data is set and the error state stays what it was.  Nothing is
    retried or rethrown: the calls end in these states.  A class component
    whose request failed with a non-empty message renders that message. *)
Theorem failed_fetch_sets_error :
  (∀ (st : ClassUserList.State) (e : Error),
     ClassUserList.fetchUsers st (rejected e) =
     {| ClassUserList.users := ClassUserList.users st;
        ClassUserList.loading := false;
        ClassUserList.error := Some (message e) |}) ∧
  (∀ (st : ClassUserList.State) (e : Error),
     ClassUserList.render (ClassUserList.fetchUsers st (rejected e)) =
     if truthy (message e) then ErrorView (message e)
     else ListView (ClassUserList.users st)) ∧
  (∀ (st : UserListSolution.State) (e : Error),
     UserListSolution.fetchUsers st (rejected e) =
     ({| UserListSolution.error := Some (message e);
         UserListSolution.loading := false;
         UserListSolution.users := UserListSolution.users st |},
      UserListSolution.catch_reached)) ∧
  (∀ (T : Type) (st : UseFetch.FetchState T) (e : Error),
     UseFetch.fetchData st (rejected e) =
     {| UseFetch.data := None; UseFetch.loading := false;
        UseFetch.error := Some (message e) |}) ∧
  (∀ (T : Type) (st : UseFetch.FetchState T) (body : Settled T),
     UseFetch.fetchData st (resolved {| UseFetch.ok := false; UseFetch.json := body |}) =
     {| UseFetch.data := None; UseFetch.loading := false;
        UseFetch.error := Some "Network response was not ok" |}) ∧
  (∀ (T : Type) (st : UseFetch.FetchState T) (e : Error),
     UseFetch.fetchData st
       (resolved {| UseFetch.ok := true; UseFetch.json := rejected e |}) =
     {| UseFetch.data := None; UseFetch.loading := false;
        UseFetch.error := Some (message e) |}) ∧
  (∀ (T : Type) (st : UseFetch.FetchState T) (d : T),
     UseFetch.fetchData st
       (resolved {| UseFetch.ok := true; UseFetch.json := resolved d |}) =
     {| UseFetch.data := Some d; UseFetch.loading := false;
        UseFetch.error := None |}) ∧
  (∀ (T : Type) (st : PatternUseFetch.State T) (e : Error),
     PatternUseFetch.fetchData st (rejected e) =
     {| PatternUseFetch.data := PatternUseFetch.data st;
        PatternUseFetch.loading := false;
        PatternUseFetch.error := Some e |}) ∧
  (∀ (T : Type) (st : PatternUseFetch.State T) (ok : bool) (e : Error),
     PatternUseFetch.fetchData st
       (resolved {| UseFetch.ok := ok; UseFetch.json := rejected e |}) =
     {| PatternUseFetch.data := PatternUseFetch.data st;
        PatternUseFetch.loading := false;
        PatternUseFetch.error := Some e |}) ∧
  (∀ (T : Type) (st : PatternUseFetch.State T) (ok : bool) (d : T),
     PatternUseFetch.fetchData st
       (resolved {| UseFetch.ok := ok; UseFetch.json := resolved d |}) =
     {| PatternUseFetch.data := Some d;
        PatternUseFetch.loading := false;
        PatternUseFetch.error := PatternUseFetch.error st |}).
Proof.
  repeat apply conj; reflexivity.
Qed.

End FetchErrorProps.

(** ** The broken solution snippets *)
Module BrokenSolutionProps.
Import UserListSolution.

Lemma response_has_no_ok (response : AxiosResponse) : get response "ok" = undefined.
Proof. reflexivity. Qed.

Lemma fetchUsers_settles_in_catch (st : State) (r : Settled AxiosResponse) :
  ∃ e : Error, fetchUsers st r = (on_error st e, catch_reached).
Proof.
  destruct r as [response|e].
  - exists {| message := "Fetching data about users failed" |}.
    unfold fetchUsers. by rewrite response_has_no_ok.
  - by exists e.
Qed.

(** C5.  The solution of question 1 is broken: an axios response has no
    [ok] property, so for every way [axios.get] settles [fetchUsers] ends
    in its catch branch; after the effect the users are still the empty
    initial list, [loading] is false and an error message is set, so the
    component renders the message, or an empty list when the message is
    empty, and never the fetched users.  The solution of question 4 stores
    [Number(value)] as the age for every input string and keeps the name, so
    the age is [NaN] whenever [Number(value)] is. *)
Theorem broken_solutions :
  (∀ response : AxiosResponse, to_boolean (get response "ok") = false) ∧
  (∀ (st : State) (r : Settled AxiosResponse), (fetchUsers st r).2 = catch_reached) ∧
  (∀ r : Settled AxiosResponse,
     ∃ msg : string,
       effect initialState r =
       {| error := Some msg; loading := false; users := Some [] |} ∧
       render (effect initialState r) =
       Some (if truthy msg then ErrorView msg else ListView [])) ∧
  (∀ (number : Type) (Number : string → number) (isNaN : number → bool)
     (user : UserProfile.User number) (value : string),
     UserProfile.handleAgeChange Number user value =
     {| UserProfile.name := UserProfile.name user; UserProfile.age := Number value |} ∧
     isNaN (UserProfile.age (UserProfile.handleAgeChange Number user value)) =
     isNaN (Number value)).
Proof.
  repeat apply conj.
  - reflexivity.
  - intros st r. by destruct (fetchUsers_settles_in_catch st r) as [e ->].
  - intros r. unfold effect. simpl.
    destruct (fetchUsers_settles_in_catch initialState r) as [e ->].
    exists (message e). split; [reflexivity|].
    unfold render. simpl. by destruct (truthy (message e)).
  - intros number Number isNaN user value. split; reflexivity.
Qed.

Example server_answers_200 :
  let response := {| data := data_array [ {| id := 1; name := "Ann"; email := "ann@example.com" |} ];
                     status := 200; statusText := "OK" |} in
  render (effect initialState (resolved response)) =
  Some (ErrorView "Fetching data about users failed").
Proof. reflexivity. Qed.

End BrokenSolutionProps.

(** ** Persistence: what [setValue] leaves in the browser *)
Module PersistenceProps.
Import LocalStorage.

(** The claim that no operation writes to local storage fails on
    [setValue]: after storing [42] under ["name"] in an empty storage, the
    storage holds the text ["42"] under that key. *)
Lemma nothing_persists_refuted :
  ¬ (∀ (key : string) (v : Json) (h : Hook Json) (w : World),
       localStorage (setValue Json stringify unlimited key v h w).2 = localStorage w).
Proof.
  intros H.
  specialize (H "name" (JNum 42) {| storedValue := JNull |}
                emptyWorld).
  apply (f_equal (λ st : Storage, st !! "name")) in H.
  vm_compute in H. discriminate H.
Qed.

(** C6, amended.  [setValue] of [useLocalStorage] writes to the browser's
    local storage: when [JSON.stringify] yields a text and the storage
    accepts it, the storage afterwards holds that text under the key and is
    unchanged under every other key, and a hook mounted later on that
    storage, with whatever initial value, starts from the written value if
    the text parses back to it.  When [JSON.stringify] throws or the storage
    refuses the write, the storage is unchanged and the error is logged. *)
Theorem setValue_persists :
  (∀ (value : Type) (JSON_stringify : value → option string)
     (JSON_parse : string → option value) (quota : Storage → bool)
     (key : string) (v initialValue : value) (h : Hook value) (w : World)
     (s : string),
     JSON_stringify v = Some s →
     quota (<[key := s]> (localStorage w)) = true →
     localStorage (setValue value JSON_stringify quota key v h w).2
     = <[key := s]> (localStorage w) ∧
     (∀ k, k ≠ key →
           getItem (localStorage (setValue value JSON_stringify quota key v h w).2) k
           = getItem (localStorage w) k) ∧
     console (setValue value JSON_stringify quota key v h w).2 = console w ∧
     (JSON_parse "" = None → JSON_parse s = Some v →
      storedValue
        (useLocalStorage value JSON_parse key initialValue
           (setValue value JSON_stringify quota key v h w).2) = v)) ∧
  (∀ (value : Type) (JSON_stringify : value → option string)
     (quota : Storage → bool) (key : string) (v : value) (h : Hook value)
     (w : World),
     JSON_stringify v = None →
     (setValue value JSON_stringify quota key v h w).2
     = {| localStorage := localStorage w; console := console w ++ [TypeError] |}) ∧
  (∀ (value : Type) (JSON_stringify : value → option string)
     (quota : Storage → bool) (key : string) (v : value) (h : Hook value)
     (w : World) (s : string),
     JSON_stringify v = Some s →
     quota (<[key := s]> (localStorage w)) = false →
     (setValue value JSON_stringify quota key v h w).2
     = {| localStorage := localStorage w;
          console := console w ++ [QuotaExceededError] |}).
Proof.
  repeat apply conj.
  - intros value JSON_stringify JSON_parse quota key v initialValue h w s Hs Hq.
    rewrite (RoundTripProps.setValue_stores value JSON_stringify quota key v h w s Hs Hq).
    simpl. repeat apply conj; try done.
    + intros k Hk. unfold getItem. by apply lookup_insert_ne.
    + intros Hempty Hp.
      pose proof (RoundTripProps.read_after_write value JSON_stringify JSON_parse
                    quota Hempty key v initialValue h w s Hs Hp Hq) as Hr.
      by rewrite (RoundTripProps.setValue_stores value JSON_stringify quota
                    key v h w s Hs Hq) in Hr.
  - intros value JSON_stringify quota key v h w Hs.
    unfold setValue. by rewrite Hs.
  - intros value JSON_stringify quota key v h w s Hs Hq.
    unfold setValue, setItem. by rewrite Hs, Hq.
Qed.

Lemma setValue_persists_witness :
  (localStorage (setValue Json stringify unlimited "name" (JNum 42)
                          {| storedValue := JNull |} prefilled).2
   = <["name" := "42"]> (localStorage prefilled) ∧
   (∀ k, k ≠ "name" →
         getItem (localStorage (setValue Json stringify unlimited "name" (JNum 42)
                                         {| storedValue := JNull |} prefilled).2) k
         = getItem (localStorage prefilled) k) ∧
   console (setValue Json stringify unlimited "name" (JNum 42)
                     {| storedValue := JNull |} prefilled).2 = console prefilled ∧
   (parse "" = None → parse "42" = Some (JNum 42) →
    storedValue
      (useLocalStorage Json parse "name" (JBool false)
         (setValue Json stringify unlimited "name" (JNum 42)
                   {| storedValue := JNull |} prefilled).2) = JNum 42)) ∧
  (setValue Json (λ _, None) unlimited "name" (JNum 42)
            {| storedValue := JNull |} prefilled).2
  = {| localStorage := localStorage prefilled;
       console := console prefilled ++ [TypeError] |} ∧
  (setValue Json stringify (λ _, false) "name" (JNum 42)
            {| storedValue := JNull |} prefilled).2
  = {| localStorage := localStorage prefilled;
       console := console prefilled ++ [QuotaExceededError] |}.
Proof.
  destruct setValue_persists as (Hwrite & Hthrow & Hquota).
  split; [|split].
  - apply (Hwrite Json stringify parse unlimited "name" (JNum 42) (JBool false)
             {| storedValue := JNull |} prefilled "42"); reflexivity.
  - apply (Hthrow Json (λ _, None) unlimited "name" (JNum 42)). reflexivity.
  - apply (Hquota Json stringify (λ _, false) "name" (JNum 42)
             {| storedValue := JNull |} prefilled "42"); reflexivity.
Defined.

End PersistenceProps.

(** ** Independence of the source files *)
Module ImportsProps.
Import Imports.

Lemma independent_spec (repo : list SourceFile) :
  independent repo = true →
  Forall (λ f, Forall (λ spec, resolves_in repo f spec = false) (imports f)) repo.
Proof.
  unfold independent. intros H.
  apply Forall_forall. intros f Hf. apply Forall_forall. intros spec Hs.
  rewrite forallb_forall in H.
  specialize (H f (proj1 (list_elem_of_In _ _) Hf)).
  rewrite forallb_forall in H.
  specialize (H spec (proj1 (list_elem_of_In _ _) Hs)).
  by apply negb_true_iff.
Qed.

Lemma no_candidate_in_tree (repo : list SourceFile) (cands : list string) :
  existsb (λ c, existsb (λ g, String.eqb c (path g)) repo) cands = false →
  filter (λ c, existsb (λ g, String.eqb c (path g)) repo = true) cands = [].
Proof.
  induction cands as [|c cs IH]; [done|].
  cbn [existsb]. intros H. apply orb_false_iff in H as [Hc Hcs].
  rewrite filter_cons. case_decide; [congruence|]. by apply IH.
Qed.

Lemma dependencies_nil (repo : list SourceFile) (f : SourceFile) :
  Forall (λ spec, resolves_in repo f spec = false) (imports f) →
  dependencies repo f = [].
Proof.
  unfold dependencies. induction 1 as [|spec specs Hs _ IH]; [done|].
  cbn [flat_map]. rewrite IH, app_nil_r. unfold resolves_in in Hs.
  destruct (is_relative spec); [|done].
  by apply no_candidate_in_tree.
Qed.

(** C7.  No source file depends on another: every module specifier in the
    tree either names a package or is a relative path that resolves to no
    file of the tree, so each file has no dependency in the tree.  The one
    relative import of a question file, [./LazyComponent] in question 20,
    is among those that resolve to nothing. *)
Theorem files_independent :
  Forall (λ f, Forall (λ spec, resolves_in repository f spec = false) (imports f))
         repository ∧
  Forall (λ f, dependencies repository f = []) repository.
Proof.
  assert (H : Forall (λ f, Forall (λ spec, resolves_in repository f spec = false)
                                  (imports f)) repository).
  { apply independent_spec. vm_compute. reflexivity. }
  split; [exact H|].
  eapply Forall_impl; [exact H|]. intros f. apply dependencies_nil.
Qed.

Example lazy_component_unresolved :
  let f := {| path := "react-interview-questions/question20/question-solution.tsx";
              imports := ["react"; "./LazyComponent"] |} in
  f ∈ repository ∧
  is_relative "./LazyComponent" = true ∧
  resolves_in repository f "./LazyComponent" = false.
Proof.
  split; [|split; vm_compute; reflexivity].
  do 5 apply list_elem_of_further. apply list_elem_of_here.
Qed.

End ImportsProps.

(** ** Series of dispatches on the users reducer *)
Module UserDispatchProps.
Import ImmerUsers UserDispatch.

Lemma ids_update (s : State) (p : User) :
  ids (reducer s (update_user p)) = ids s.
Proof.
  unfold ids. simpl. destruct (find_user p (users s)) as [[i u]|] eqn:E; [|done].
  destruct (proj1 (ImmerUsersProps.find_user_Some p (users s) i u) E) as (Hi & _).
  simpl. rewrite list_fmap_insert. simpl. apply list_insert_id.
  by rewrite list_lookup_fmap, Hi.
Qed.

Lemma ids_step (s : State) (a : Action) :
  ids (reducer s a) = (ids s ++ ids {| users := added [a] |})%list.
Proof.
  destruct a as [p|p].
  - unfold ids. simpl. by rewrite fmap_app.
  - rewrite ids_update. unfold ids, added. simpl. by rewrite app_nil_r.
Qed.

(** X1.  Dispatching never removes or reorders users and never changes an
    id: after any series of actions the ids are the ids from before,
    followed by the ids of the [add_user] payloads in the order they were
    dispatched. *)
Theorem dispatch_ids (s : State) (acts : list Action) :
  id <$> users (dispatch_all s acts) =
  ((id <$> users s) ++ (id <$> added acts))%list ∧
  length (users (dispatch_all s acts)) = (length (users s) + length (added acts))%nat.
Proof.
  assert (H : id <$> users (dispatch_all s acts) =
              ((id <$> users s) ++ (id <$> added acts))%list).
  { revert s. induction acts as [|a acts IH]; intros s.
    - simpl. by rewrite app_nil_r.
    - unfold dispatch_all in *. cbn [foldl]. rewrite IH.
      fold (ids (reducer s a)). rewrite ids_step. unfold ids, added. simpl.
      rewrite <- app_assoc. f_equal.
      destruct a; simpl; by rewrite ?fmap_cons. }
  split; [exact H|].
  apply (f_equal length) in H. by rewrite length_app, !length_fmap in H.
Qed.

Lemma shadowed_step (s : State) (i : nat) (u : User) (a : Action) :
  users s !! i = Some u →
  (∃ j v, j < i ∧ users s !! j = Some v ∧ id v = id u) →
  users (reducer s a) !! i = Some u ∧
  ∃ j v, j < i ∧ users (reducer s a) !! j = Some v ∧ id v = id u.
Proof.
  intros Hi (j & v & Hji & Hj & Hid). destruct a as [p|p]; simpl.
  - split; [by apply lookup_app_l_Some|].
    exists j, v. repeat split; try done. by apply lookup_app_l_Some.
  - destruct (find_user p (users s)) as [[k w]|] eqn:E; simpl; [|by eauto 10].
    destruct (proj1 (ImmerUsersProps.find_user_Some p (users s) k w) E)
      as (Hk & Hkid & Hfirst).
    assert (Hki : k ≠ i).
    { intros ->. assert (w = u) as -> by congruence.
      apply (Hfirst j v Hj Hji). congruence. }
    split; [by rewrite list_lookup_insert_ne|].
    destruct (decide (k = j)) as [->|Hkj].
    + exists j, {| id := id w; name := name p |}. repeat split; try done.
      * apply list_lookup_insert_eq. by eapply lookup_lt_Some.
      * simpl. congruence.
    + exists j, v. repeat split; try done. by rewrite list_lookup_insert_ne.
Qed.

(** X2.  A user that comes after another user with the same id can never
    be renamed: whatever series of actions is dispatched, the array holds
    the same user at that position. *)
Theorem shadowed_user_frozen (s : State) (i : nat) (u : User) (acts : list Action) :
  users s !! i = Some u →
  (∃ j v, j < i ∧ users s !! j = Some v ∧ id v = id u) →
  users (dispatch_all s acts) !! i = Some u.
Proof.
  revert s. induction acts as [|a acts IH]; intros s Hi Hj; [done|].
  unfold dispatch_all in *. cbn [foldl].
  destruct (shadowed_step s i u a Hi Hj) as [Hi' Hj']. by apply IH.
Qed.

Lemma shadowed_user_frozen_witness :
  users (dispatch_all sample_users
           [update_user {| id := 2; name := "Zed" |};
            add_user {| id := 2; name := "Dan" |};
            update_user {| id := 2; name := "Eve" |}]) !! 2
  = Some {| id := 2; name := "Cid" |}.
Proof.
  apply (shadowed_user_frozen sample_users 2 {| id := 2; name := "Cid" |}).
  - reflexivity.
  - exists 1, {| id := 2; name := "Bob" |}. repeat split. lia.
Defined.

Lemma find_user_unique (p : User) (us : list User) (i : nat) (u : User) :
  NoDup (id <$> us) → us !! i = Some u → id u = id p →
  find_user p us = Some (i, u).
Proof.
  intros Hnd Hi Hid. apply ImmerUsersProps.find_user_Some.
  repeat split; try done. intros j v Hj Hlt Hv.
  assert (j = i); [|lia].
  eapply (NoDup_lookup (id <$> us) j i (id p)); [done| |].
  - by rewrite list_lookup_fmap, Hj; simpl; rewrite Hv.
  - by rewrite list_lookup_fmap, Hi; simpl; rewrite Hid.
Qed.

(** X3.  While the ids are pairwise distinct, [update_user] renames exactly
    the user that carries the id, wherever it stands in the array, and the
    ids stay distinct; [add_user] keeps them distinct when the new id is
    not in use. *)
Theorem unique_ids_update (s : State) :
  NoDup (id <$> users s) →
  (∀ i u n, users s !! i = Some u →
     users (reducer s (update_user {| id := id u; name := n |})) =
     <[i := {| id := id u; name := n |}]> (users s)) ∧
  (∀ p, NoDup (id <$> users (reducer s (update_user p)))) ∧
  (∀ p, id p ∉ (id <$> users s) → NoDup (id <$> users (reducer s (add_user p)))).
Proof.
  intros Hnd. repeat apply conj.
  - intros i u n Hi. simpl.
    by rewrite (find_user_unique {| id := id u; name := n |} (users s) i u Hnd Hi).
  - intros p. fold (ids (reducer s (update_user p))). by rewrite ids_update.
  - intros p Hp. simpl. rewrite fmap_app. simpl.
    apply NoDup_app. repeat split; try done.
    + intros x Hx Hx'. apply list_elem_of_singleton in Hx'. by subst.
    + apply NoDup_singleton.
Qed.

Lemma unique_ids_update_witness :
  users (reducer distinct_users (update_user {| id := 2; name := "Zed" |})) =
  [ {| id := 1; name := "Ann" |}; {| id := 2; name := "Zed" |} ] ∧
  NoDup (id <$> users (reducer distinct_users (add_user {| id := 3; name := "Cid" |}))).
Proof.
  assert (Hnd : NoDup (id <$> users distinct_users)).
  { compute_done. }
  destruct (unique_ids_update distinct_users Hnd) as (Hup & _ & Hadd). split.
  - apply (Hup 1 {| id := 2; name := "Bob" |} "Zed"). reflexivity.
  - apply Hadd. compute_done.
Defined.

Lemma find_user_renamed (p q : User) (us : list User) (i : nat) (u : User) :
  find_user p us = Some (i, u) →
  find_user p (<[i := {| id := id u; name := name q |}]> us)
  = Some (i, {| id := id u; name := name q |}).
Proof.
  intros E.
  destruct (proj1 (ImmerUsersProps.find_user_Some p us i u) E) as (Hi & Hid & Hfirst).
  apply ImmerUsersProps.find_user_Some. repeat split; try done.
  - apply list_lookup_insert_eq. by eapply lookup_lt_Some.
  - intros j v Hj Hlt. rewrite list_lookup_insert_ne in Hj by lia. by eapply Hfirst.
Qed.

(** X4.  Of two [update_user] actions for the same id dispatched in a row,
    only the second shows: the result is the one of the second action
    alone.  In particular dispatching the same update twice is the same as
    dispatching it once. *)
Theorem last_update_wins (s : State) (p q : User) :
  id p = id q →
  reducer (reducer s (update_user p)) (update_user q) = reducer s (update_user q).
Proof.
  intros Hid. simpl.
  assert (Hf : find_user q (users s) = find_user p (users s)).
  { unfold find_user. by rewrite Hid. }
  rewrite Hf. destruct (find_user p (users s)) as [[i u]|] eqn:E; simpl.
  - assert (Hq : find_user q (<[i := {| id := id u; name := name p |}]> (users s))
                 = Some (i, {| id := id u; name := name p |})).
    { unfold find_user. rewrite <- Hid. by apply (find_user_renamed p p). }
    rewrite Hq. simpl. by rewrite list_insert_insert_eq.
  - by rewrite Hf.
Qed.

Lemma last_update_wins_witness :
  reducer (reducer sample_users (update_user {| id := 2; name := "Zed" |}))
          (update_user {| id := 2; name := "Eve" |})
  = reducer sample_users (update_user {| id := 2; name := "Eve" |}).
Proof. apply last_update_wins. reflexivity. Defined.

End UserDispatchProps.

(** ** Change events and validation *)
Module FormChangeProps.
Import FormValidation FormChange.

(** Reading the three fields of the object of a form state gives the form
    state back. *)
Lemma state_of_object_of (f : FormState) : state_of (object_of f) = f.
Proof.
  destruct f as [n e p]. unfold state_of, object_of. simpl.
  by rewrite lookup_insert_eq, lookup_insert_ne, lookup_insert_eq,
    !lookup_insert_ne, lookup_singleton_eq by done.
Qed.

Lemma last_value_snoc (k : string) (events : list (string * string)) (e : string * string) :
  last_value k (events ++ [e]) =
  if decide (e.1 = k) then Some e.2 else last_value k events.
Proof.
  unfold last_value. rewrite filter_app, filter_cons, filter_nil.
  case_decide.
  - by rewrite last_snoc.
  - by rewrite app_nil_r.
Qed.

Lemma changes_lookup (o : FormObject) (events : list (string * string)) (k : string) :
  changes o events !! k =
  match last_value k events with
  | Some v => Some v
  | None => o !! k
  end.
Proof.
  induction events as [|e events IH] using rev_ind; [done|].
  unfold changes in *. rewrite foldl_app. simpl. unfold handleChange at 1.
  rewrite last_value_snoc, lookup_insert. case_decide; [done|]. exact IH.
Qed.

(** X5.  No change event is lost and the last one wins: after a series of
    events, each of the three fields holds the value of the last event its
    input fired, or what it held before when the input fired none; events
    of an input with another name leave the three fields alone. *)
Theorem changes_last_wins (o : FormObject) (events : list (string * string)) :
  state_of (changes o events) =
  {| name := effective o events "name";
     email := effective o events "email";
     password := effective o events "password" |}.
Proof.
  unfold state_of, effective. rewrite !changes_lookup.
  by destruct (last_value "name" events), (last_value "email" events),
    (last_value "password" events).
Qed.

Lemma submit_calls (f : FormState) (e : Errors) :
  callbackCalls (handleSubmit {| form := f; errors := e |}) =
  if bool_decide (all_filled f) then 1 else 0.
Proof.
  unfold handleSubmit, validate. simpl.
  rewrite FormValidationProps.Object_keys_length.
  destruct (Nat.eqb_spec (size (newErrors_of f)) 0) as [H|H].
  - apply FormValidationProps.newErrors_empty in H. by rewrite bool_decide_eq_true_2.
  - rewrite bool_decide_eq_false_2; [done|].
    intros Hall. by apply FormValidationProps.newErrors_empty in Hall.
Qed.

(** X6.  A submit after a series of change events invokes the callback
    exactly when the value each field holds after the events is non-empty,
    whatever errors an earlier submit had left. *)
Theorem submit_after_changes (o : FormObject) (events : list (string * string))
        (e : Errors) :
  callbackCalls (handleSubmit {| form := state_of (changes o events); errors := e |}) = 1
  ↔ effective o events "name" ≠ "" ∧
    effective o events "email" ≠ "" ∧
    effective o events "password" ≠ "".
Proof.
  rewrite submit_calls, changes_last_wins. unfold all_filled. simpl.
  case_bool_decide; split; done.
Qed.

End FormChangeProps.

(** ** The counter under a series of dispatches *)
Module CounterSeriesProps.
Import Counter CounterSeries.

Lemma dispatch_all_exact (acts : list Action) (s : State) :
  (Z.abs (count s) + Z.of_nat (length acts) <= 2 ^ 53)%Z →
  dispatch_all s acts = {| count := count s + net acts |}.
Proof.
  revert s. unfold dispatch_all.
  induction acts as [|a acts IH]; intros [c] Hb; simpl in *.
  - f_equal. lia.
  - rewrite IH.
    + destruct a; simpl; unfold js_add, js_sub;
        rewrite RoundTripProps.round_double_exact by lia; f_equal; lia.
    + destruct a; simpl; unfold js_add, js_sub;
        rewrite RoundTripProps.round_double_exact by lia; lia.
Qed.

Lemma net_Permutation (acts acts' : list Action) :
  acts ≡ₚ acts' → net acts = net acts'.
Proof.
  unfold net. induction 1; simpl; lia.
Qed.

(** X7.  As long as the count cannot leave the safe integers (its magnitude
    plus the number of actions is at most [2^53]), a series of dispatches
    adds the number of increments minus the number of decrements, so the
    order of the actions does not matter. *)
Theorem dispatch_all_net (s : State) (acts : list Action) :
  (Z.abs (count s) + Z.of_nat (length acts) <= 2 ^ 53)%Z →
  count (dispatch_all s acts) = (count s + net acts)%Z ∧
  ∀ acts', acts ≡ₚ acts' → dispatch_all s acts' = dispatch_all s acts.
Proof.
  intros Hb. split; [by rewrite dispatch_all_exact|].
  intros acts' Hp. rewrite !dispatch_all_exact; try done.
  - by rewrite (net_Permutation acts acts').
  - by rewrite <- Hp.
Qed.

Lemma dispatch_all_net_witness :
  count (dispatch_all initialState [increment; decrement; increment]) = 1%Z ∧
  dispatch_all initialState [increment; increment; decrement]
  = dispatch_all initialState [increment; decrement; increment].
Proof.
  assert (Hb : (Z.abs (count initialState)
                + Z.of_nat (length [increment; decrement; increment]) <= 2 ^ 53)%Z)
    by (simpl; lia).
  destruct (dispatch_all_net initialState [increment; decrement; increment] Hb)
    as [Hc Hp].
  split; [exact Hc|]. apply Hp. apply perm_skip, perm_swap.
Defined.

Lemma dispatch_all_app (s : State) (acts acts' : list Action) :
  dispatch_all s (acts ++ acts') = dispatch_all (dispatch_all s acts) acts'.
Proof. unfold dispatch_all. apply foldl_app. Qed.

Lemma net_replicate_increment (n : nat) : net (replicate n increment) = Z.of_nat n.
Proof. unfold net. induction n as [|n IH]; simpl in *; lia. Qed.

Lemma increments_saturated (n : nat) :
  dispatch_all {| count := 2 ^ 53 |} (replicate n increment) = {| count := 2 ^ 53 |}.
Proof.
  unfold dispatch_all. induction n as [|n IH]; [done|]. simpl.
  change (js_add (2 ^ 53) 1) with (2 ^ 53)%Z. exact IH.
Qed.

(** X16.  Clicking [Increment] counts exactly up to [2^53] and then no
    further: after [n] increments from [0] the count is the smaller of [n]
    and [2^53], because [2^53 + 1] rounds back to [2^53]. *)
Theorem increments_saturate (n : nat) :
  count (dispatch_all initialState (replicate n increment)) = Z.min (Z.of_nat n) (2 ^ 53).
Proof.
  destruct (decide (Z.of_nat n <= 2 ^ 53)%Z) as [Hle|Hgt].
  - rewrite dispatch_all_exact by (rewrite length_replicate; simpl; lia).
    rewrite net_replicate_increment. simpl. lia.
  - assert (Hsplit : ∃ m k : nat, n = (m + k)%nat ∧ Z.of_nat m = (2 ^ 53)%Z).
    { exists (Z.to_nat (2 ^ 53)), (n - Z.to_nat (2 ^ 53))%nat. lia. }
    destruct Hsplit as (m & k & -> & Hm).
    rewrite replicate_add, dispatch_all_app.
    rewrite (dispatch_all_exact (replicate m increment))
      by (rewrite length_replicate; simpl; lia).
    rewrite net_replicate_increment.
    replace (count initialState + Z.of_nat m)%Z with (2 ^ 53)%Z by (simpl; lia).
    rewrite increments_saturated. simpl. lia.
Qed.

End CounterSeriesProps.

(** ** Series of throttled calls *)
Module ThrottleSeriesProps.
Import Throttle ThrottleSeries.

Lemma timed_calls_snoc (W : Type) (delay : Z) (cs : list (Z * (W → W)))
      (c : Z * (W → W)) (r : Ref) (w : W) :
  timed_calls W delay (cs ++ [c]) r w =
  throttled W c.2 delay c.1 (timed_calls W delay cs r w).1 (timed_calls W delay cs r w).2.
Proof. unfold timed_calls. by rewrite foldl_app. Qed.

Lemma spaced_snoc (delay : Z) (l : list Z) (t : Z) :
  spaced delay l →
  (∀ a, last l = Some a → (delay <= t - a)%Z) →
  spaced delay (l ++ [t]).
Proof.
  intros Hs Hl i a b Ha Hb.
  destruct (decide (S i < length l)) as [Hlt|Hge].
  - rewrite lookup_app_l in Ha by lia. rewrite lookup_app_l in Hb by lia. eauto.
  - assert (Hi : S i = length l).
    { apply lookup_lt_Some in Hb. rewrite length_app in Hb. simpl in Hb. lia. }
    rewrite lookup_app_l in Ha by lia.
    rewrite lookup_app_r in Hb by lia.
    replace (S i - length l) with 0 in Hb by lia. simpl in Hb.
    injection Hb as <-. apply Hl. rewrite last_lookup.
    by replace (Init.Nat.pred (length l)) with i by lia.
Qed.

(** The throttle's record and the log agree, and the log is spaced. *)
Lemma log_calls_inv (delay : Z) (times : list Z) (r : Ref) :
  let res := log_calls delay times r in
  spaced delay res.2 ∧
  current res.1 = default (current r) (last res.2) ∧
  (∀ a, head res.2 = Some a → (delay <= a - current r)%Z) ∧
  res.2 `sublist_of` times.
Proof.
  induction times as [|t times IH] using rev_ind.
  - simpl. repeat split; done.
  - unfold log_calls in *. rewrite fmap_app. simpl. rewrite timed_calls_snoc.
    destruct (timed_calls (list Z) delay (noting <$> times) r []) as [r' log].
    simpl in *. destruct IH as (Hs & Hc & Hh & Hsub).
    destruct (decide (delay <= t - current r')%Z) as [Hd|Hd].
    + rewrite ThrottleProps.throttled_invoked by done. simpl.
      repeat split.
      * apply spaced_snoc; [done|]. intros a Ha. rewrite Ha in Hc. simpl in Hc. lia.
      * by rewrite last_snoc.
      * intros a. destruct log as [|x log]; simpl in *.
        -- intros [= <-]. lia.
        -- eauto.
      * by apply sublist_app.
    + rewrite ThrottleProps.throttled_suppressed by lia. simpl.
      repeat split; try done. by apply sublist_inserts_r.
Qed.

(** X8.  The callback of [useThrottle] never runs twice within [delay]
    milliseconds: whatever the times of the calls, the times at which the
    callback ran are a subsequence of them in which consecutive entries are
    at least [delay] apart, and the first is at least [delay] after the
    time the ref held at the start. *)
Theorem throttle_spacing (delay : Z) (times : list Z) (r : Ref) :
  spaced delay (log_calls delay times r).2 ∧
  (∀ a, head (log_calls delay times r).2 = Some a → (delay <= a - current r)%Z) ∧
  (log_calls delay times r).2 `sublist_of` times.
Proof.
  pose proof (log_calls_inv delay times r) as (Hs & _ & Hh & Hsub). done.
Qed.

Lemma spaced_app_l (delay : Z) (l1 l2 : list Z) :
  spaced delay (l1 ++ l2) → spaced delay l1.
Proof.
  intros Hs i a b Ha Hb. apply (Hs i a b); by apply lookup_app_l_Some.
Qed.

Lemma spaced_last (delay : Z) (l : list Z) (t a : Z) :
  spaced delay (l ++ [t]) → last l = Some a → (delay <= t - a)%Z.
Proof.
  intros Hs Hl. rewrite last_lookup in Hl.
  destruct l as [|x l]; [done|]. simpl in Hl.
  apply (Hs (length l) a t).
  - by apply lookup_app_l_Some.
  - rewrite lookup_app_r by (simpl; lia).
    by replace (S (length l) - length (x :: l)) with 0 by (simpl; lia).
Qed.

(** X9.  Calls that are at least [delay] apart, the first at least [delay]
    after the time the ref holds, are never suppressed: every callback runs,
    in order, and the ref ends at the time of the last call. *)
Theorem spaced_calls_all_run (W : Type) (delay : Z) (cs : list (Z * (W → W)))
        (r : Ref) (w : W) :
  spaced delay cs.*1 →
  (∀ a, head cs.*1 = Some a → (delay <= a - current r)%Z) →
  timed_calls W delay cs r w =
  ({| current := default (current r) (last cs.*1) |}, foldl (λ w c, c.2 w) w cs).
Proof.
  induction cs as [|c cs IH] using rev_ind; intros Hs Hh.
  - by destruct r.
  - rewrite timed_calls_snoc, fmap_app in *. simpl in *.
    rewrite IH; cycle 1.
    { by eapply spaced_app_l. }
    { intros a Ha. apply Hh. by destruct (cs.*1). }
    simpl. rewrite last_snoc, foldl_app. simpl.
    apply ThrottleProps.throttled_invoked. simpl.
    destruct (last cs.*1) as [a|] eqn:El; simpl.
    + by eapply spaced_last.
    + apply Hh. apply last_None in El. by rewrite El.
Qed.

Lemma spaced_calls_all_run_witness :
  timed_calls nat 1000 [(1000, S); (2000, S); (3500, S)]%Z initialRef 0
  = ({| current := 3500 |}, 3).
Proof.
  apply (spaced_calls_all_run nat 1000 [(1000, S); (2000, S); (3500, S)]%Z initialRef 0).
  - intros [|[|[|i]]] a b; simpl; intros [= <-] Hb; try done;
      injection Hb as <-; lia.
  - simpl. intros a [= <-]. lia.
Defined.

Lemma timed_calls_suppressed (W : Type) (delay : Z) (cs : list (Z * (W → W)))
      (r : Ref) (w : W) :
  Forall (λ c, (c.1 - current r < delay)%Z) cs →
  timed_calls W delay cs r w = (r, w).
Proof.
  unfold timed_calls. induction 1 as [|c cs Hc _ IH]; [done|].
  simpl. by rewrite ThrottleProps.throttled_suppressed.
Qed.

(** X10.  [ThrottledResize] shows the size the window had at the start of
    a burst: when a resize event is handled and the events after it all
    come less than [delay] after it, the size kept is the one of that first
    event, whatever sizes the later events had. *)
Theorem resize_burst_keeps_first (delay t : Z) (sz : Size) (rest : list (Z * Size))
        (r : Ref) (windowSize : Size) :
  (delay <= t - current r)%Z →
  Forall (λ e, (e.1 - t < delay)%Z) rest →
  resizes delay ((t, sz) :: rest) r windowSize = ({| current := t |}, sz).
Proof.
  intros Hd Hrest. unfold resizes, timed_calls. simpl.
  rewrite ThrottleProps.throttled_invoked by done.
  apply (timed_calls_suppressed Size delay (handleResize <$> rest)).
  apply Forall_fmap. by eapply Forall_impl.
Qed.

Lemma resize_burst_keeps_first_witness :
  resizes 1000 [(5000, mkSize 800 600); (5300, mkSize 900 600);
                (5900, mkSize 1024 768)]%Z initialRef (mkSize 640 480)
  = ({| current := 5000 |}, mkSize 800 600).
Proof.
  apply resize_burst_keeps_first.
  - simpl. lia.
  - repeat constructor; simpl; lia.
Defined.

End ThrottleSeriesProps.

(** ** Debouncing: the quiet period *)
Module DebounceTypingProps.
Import Debounce DebounceTyping.

Lemma elapse_waiting_early (shown v : string) (delay t : Z) (n : nat) (t' : Z) :
  (t <= t' < t + timeout_delay delay)%Z →
  elapse t' (waiting shown v delay t n).1 (waiting shown v delay t n).2
  = ({| debouncedValue := shown; deps := (v, delay); handler := n |},
     {| now := t'; timers := [mkTimer n (t + timeout_delay delay) v];
        next_handle := S n |}).
Proof.
  intros Ht. unfold elapse, waiting. simpl.
  replace (Z.max t' t) with t' by lia.
  rewrite !filter_cons, !filter_nil. simpl.
  repeat case_decide; try lia. done.
Qed.

Lemma elapse_waiting_late (shown v : string) (delay t : Z) (n : nat) (t' : Z) :
  (t + timeout_delay delay <= t')%Z →
  elapse t' (waiting shown v delay t n).1 (waiting shown v delay t n).2
  = ({| debouncedValue := v; deps := (v, delay); handler := n |},
     {| now := Z.max t' t; timers := []; next_handle := S n |}).
Proof.
  intros Ht. unfold elapse, waiting. simpl.
  rewrite !filter_cons, !filter_nil. simpl.
  repeat case_decide; try lia. done.
Qed.

Lemma render_waiting (h : Hook) (b : Browser) (v : string) (delay : Z) :
  pending_latest (h, b) → deps h ≠ (v, delay) →
  render v delay h b = waiting (debouncedValue h) v delay (now b) (next_handle b).
Proof. intros Hp Hd. by rewrite DebounceProps.render_changed. Qed.

(** X11.  The contract of [useDebounce], for a delay from [1] to
    [2^31 - 1] milliseconds: once the component has rendered with a new
    value (or delay), the debounced value stays what it was, with the new
    timeout pending, for as long as less than [delay] milliseconds have
    passed, and it is the new value, with nothing left pending, as soon as
    [delay] milliseconds have passed without another change. *)
Theorem debounce_quiet_period (h : Hook) (b : Browser) (v : string) (delay t : Z) :
  pending_latest (h, b) →
  deps h ≠ (v, delay) →
  (0 < delay < 2 ^ 31)%Z →
  (now b <= t)%Z →
  let hb := render v delay h b in
  debouncedValue (elapse t hb.1 hb.2).1 =
    (if decide (t < now b + delay)%Z then debouncedValue h else v) ∧
  timers (elapse t hb.1 hb.2).2 =
    (if decide (t < now b + delay)%Z
     then [mkTimer (next_handle b) (now b + delay) v] else []).
Proof.
  intros Hp Hd Hr Ht hb. unfold hb. rewrite render_waiting by done.
  pose proof (DebounceProps.timeout_delay_fits delay) as Hfit.
  case_decide.
  - rewrite elapse_waiting_early by lia. simpl. by rewrite Hfit by lia.
  - by rewrite elapse_waiting_late by lia.
Qed.

Lemma debounce_quiet_period_witness :
  (debouncedValue
     (elapse 400 (render "ab" 500 (mount "a" 500 (freshBrowser 0)).1
                         (mount "a" 500 (freshBrowser 0)).2).1
             (render "ab" 500 (mount "a" 500 (freshBrowser 0)).1
                     (mount "a" 500 (freshBrowser 0)).2).2).1 = "a" ∧
   timers
     (elapse 400 (render "ab" 500 (mount "a" 500 (freshBrowser 0)).1
                         (mount "a" 500 (freshBrowser 0)).2).1
             (render "ab" 500 (mount "a" 500 (freshBrowser 0)).1
                     (mount "a" 500 (freshBrowser 0)).2).2).2
   = [mkTimer 1 500 "ab"]) ∧
  (debouncedValue
     (elapse 500 (render "ab" 500 (mount "a" 500 (freshBrowser 0)).1
                         (mount "a" 500 (freshBrowser 0)).2).1
             (render "ab" 500 (mount "a" 500 (freshBrowser 0)).1
                     (mount "a" 500 (freshBrowser 0)).2).2).1 = "ab" ∧
   timers
     (elapse 500 (render "ab" 500 (mount "a" 500 (freshBrowser 0)).1
                         (mount "a" 500 (freshBrowser 0)).2).1
             (render "ab" 500 (mount "a" 500 (freshBrowser 0)).1
                     (mount "a" 500 (freshBrowser 0)).2).2).2 = []).
Proof.
  split.
  - apply (debounce_quiet_period (mount "a" 500 (freshBrowser 0)).1
             (mount "a" 500 (freshBrowser 0)).2 "ab" 500 400).
    + apply (DebounceProps.mount_pending "a" 500 0).
    + simpl. congruence.
    + lia.
    + simpl. lia.
  - apply (debounce_quiet_period (mount "a" 500 (freshBrowser 0)).1
             (mount "a" 500 (freshBrowser 0)).2 "ab" 500 500).
    + apply (DebounceProps.mount_pending "a" 500 0).
    + simpl. congruence.
    + lia.
    + simpl. lia.
Defined.

Lemma keystroke_waiting (shown v : string) (delay t : Z) (n : nat) (k : Z * string) :
  (t <= k.1 < t + timeout_delay delay)%Z → k.2 ≠ v →
  keystroke delay (waiting shown v delay t n) k = waiting shown k.2 delay k.1 (S n).
Proof.
  intros Ht Hv. unfold keystroke. rewrite elapse_waiting_early by lia. simpl.
  unfold render. simpl. case_decide as Hd; [congruence|].
  unfold effect, setTimeout, clearTimeout. simpl.
  rewrite filter_cons, filter_nil. simpl. case_decide; done.
Qed.

Lemma default_last_cons {A : Type} (d k : A) (keys : list A) :
  default d (last (k :: keys)) = default k (last keys).
Proof.
  destruct keys as [|k' keys']; [done|].
  change (last (k :: k' :: keys')) with (last (k' :: keys')).
  destruct (last (k' :: keys')) eqn:E; [done|]. by apply last_None in E.
Qed.

Lemma typing_waiting (keys : list (Z * string)) (shown v : string) (delay t : Z) (n : nat) :
  (0 < delay < 2 ^ 31)%Z →
  burst delay t v keys →
  typing delay (waiting shown v delay t n) keys =
  waiting shown (default (t, v) (last keys)).2 delay (default (t, v) (last keys)).1
          (length keys + n).
Proof.
  intros Hr. pose proof (DebounceProps.timeout_delay_fits delay) as Hfit.
  revert v t n. induction keys as [|k keys IH]; intros v t n Hb; [done|].
  destruct Hb as (Ht & Hv & Hb). unfold typing in *. cbn [foldl].
  rewrite keystroke_waiting by (rewrite ?Hfit by lia; done).
  rewrite IH by done.
  replace (length keys + S n) with (length (k :: keys) + n) by (simpl; lia).
  rewrite (default_last_cons (t, v) k keys). by destruct k.
Qed.

(** X12.  Typing in a burst, for a delay from [1] to [2^31 - 1]
    milliseconds: while each keystroke changes the value and comes less
    than [delay] after the previous one, the debounced value stays the value
    the component was mounted with and exactly one timeout is pending; once
    [delay] milliseconds pass after the last keystroke the debounced value
    is the last value typed and nothing is pending.  The values typed in
    between are never applied. *)
Theorem burst_applies_last_only (v0 : string) (delay t0 : Z) (keys : list (Z * string))
        (t : Z) :
  (0 < delay < 2 ^ 31)%Z →
  burst delay t0 v0 keys →
  let hb := typing delay (mount v0 delay (freshBrowser t0)) keys in
  let k := default (t0, v0) (last keys) in
  debouncedValue hb.1 = v0 ∧
  length (timers hb.2) = 1 ∧
  ((k.1 <= t < k.1 + delay)%Z →
   debouncedValue (elapse t hb.1 hb.2).1 = v0) ∧
  ((k.1 + delay <= t)%Z →
   debouncedValue (elapse t hb.1 hb.2).1 = k.2 ∧ timers (elapse t hb.1 hb.2).2 = []).
Proof.
  intros Hr Hb hb k. unfold hb, k.
  pose proof (DebounceProps.timeout_delay_fits delay) as Hfit.
  change (mount v0 delay (freshBrowser t0)) with (waiting v0 v0 delay t0 0).
  rewrite typing_waiting by done. repeat split.
  - intros Ht. rewrite elapse_waiting_early; [done|]. rewrite Hfit by lia. done.
  - rewrite elapse_waiting_late; [done|]. rewrite Hfit by lia. done.
  - rewrite elapse_waiting_late; [done|]. rewrite Hfit by lia. done.
Qed.

Lemma burst_applies_last_only_witness :
  let hb := typing 500 (mount "" 500 (freshBrowser 0))
                   [(100, "r"); (400, "re"); (700, "rea")]%Z in
  debouncedValue hb.1 = "" ∧
  length (timers hb.2) = 1 ∧
  debouncedValue (elapse 1100 hb.1 hb.2).1 = "" ∧
  debouncedValue (elapse 1200 hb.1 hb.2).1 = "rea" ∧
  timers (elapse 1200 hb.1 hb.2).2 = [].
Proof.
  assert (Hr : (0 < 500 < 2 ^ 31)%Z) by lia.
  assert (Hb : burst 500 0 "" [(100, "r"); (400, "re"); (700, "rea")]%Z).
  { simpl. repeat split; (lia || done). }
  pose proof (burst_applies_last_only "" 500 0 _ 1100 Hr Hb) as (H1 & H2 & H3 & _).
  pose proof (burst_applies_last_only "" 500 0 _ 1200 Hr Hb) as (_ & _ & _ & H4).
  simpl in H3, H4.
  split; [exact H1|]. split; [exact H2|]. split; [apply H3; lia|apply H4; lia].
Defined.

End DebounceTypingProps.

(** ** Requests of [useFetch] settling one after the other *)
Module FetchSeriesProps.
Import UseFetch FetchSeries.

Lemma fetchData_forgets {T : Type} (st st' : FetchState T) (r : Settled (Response T)) :
  fetchData st r = fetchData st' r.
Proof. by destruct r as [[[] [d|e]]|e]. Qed.

(** X13.  [useFetch] keeps whatever settled last: after several requests
    have settled, the state is the one the last of them to settle produces
    on its own, even when that request was started first.  In that state
    [loading] is false, the data is set exactly when that request went
    through, and the error is set exactly when it did not. *)
Theorem last_settled_wins {T : Type} (st : FetchState T)
        (rs : list (Settled (Response T))) (r : Settled (Response T)) :
  settle_all st (rs ++ [r]) = fetchData initialState r ∧
  loading (settle_all st (rs ++ [r])) = false ∧
  data (settle_all st (rs ++ [r])) = delivered r ∧
  (error (settle_all st (rs ++ [r])) = None ↔ is_Some (delivered r)).
Proof.
  unfold settle_all. rewrite foldl_app. simpl.
  rewrite (fetchData_forgets _ initialState r).
  split; [done|].
  destruct r as [[[] [d|e]]|e]; simpl; repeat split; try done;
    try (intros [x Hx]; discriminate Hx); by eexists.
Qed.

(** An older request that fails late hides the data of the newer one. *)
Example stale_failure_hides_data :
  render (settle_all initialState
            [resolved {| ok := true; json := resolved ["new"] |};
             rejected {| message := "Failed to fetch" |}])
  = ErrorView "Error: Failed to fetch".
Proof. reflexivity. Qed.

End FetchSeriesProps.

(** ** Several writes through [useLocalStorage] *)
Module StorageSeriesProps.
Import LocalStorage StorageSeries.

Section Runtime.

Variable value : Type.
Variable JSON_stringify : value → option string.
Variable JSON_parse : string → option value.
Variable quota : Storage → bool.

Lemma readStored_lookup (key : string) (initialValue v : value) (w : World) (s : string) :
  JSON_parse "" = None →
  localStorage w !! key = Some s →
  JSON_parse s = Some v →
  readStored value JSON_parse key initialValue w = v.
Proof.
  intros Hempty Hl Hp. unfold readStored, getItem. rewrite Hl.
  destruct (truthy s) eqn:E; [by rewrite Hp|].
  apply truthy_false in E. subst s. congruence.
Qed.

Lemma readStored_same (key : string) (initialValue : value) (w w' : World) :
  localStorage w' = localStorage w →
  readStored value JSON_parse key initialValue w'
  = readStored value JSON_parse key initialValue w.
Proof. intros H. unfold readStored. by rewrite H. Qed.

End Runtime.

(** X14.  Writes under different keys do not disturb each other and a
    second write under the same key replaces the first: after [setValue]
    under [k1] and then under [k2], both accepted by the storage, a hook
    mounted on [k2] starts from the second value, a hook mounted on [k1]
    starts from the first value when the keys differ, and every other key
    holds what it held before. *)
Theorem writes_compose (value : Type) (JSON_stringify : value → option string)
        (JSON_parse : string → option value) (quota : Storage → bool)
        (k1 k2 : string) (v1 v2 initialValue : value) (w : World) (s1 s2 : string) :
  JSON_parse "" = None →
  JSON_stringify v1 = Some s1 → JSON_parse s1 = Some v1 →
  JSON_stringify v2 = Some s2 → JSON_parse s2 = Some v2 →
  quota (<[k1 := s1]> (localStorage w)) = true →
  quota (<[k2 := s2]> (<[k1 := s1]> (localStorage w))) = true →
  let w' := write_twice value JSON_stringify quota k1 k2 v1 v2 w in
  readStored value JSON_parse k2 initialValue w' = v2 ∧
  (k1 ≠ k2 → readStored value JSON_parse k1 initialValue w' = v1) ∧
  (∀ k, k ≠ k1 → k ≠ k2 → getItem (localStorage w') k = getItem (localStorage w) k).
Proof.
  intros Hempty Hs1 Hp1 Hs2 Hp2 Hq1 Hq2 w'.
  assert (Hw : localStorage w' = <[k2 := s2]> (<[k1 := s1]> (localStorage w))).
  { unfold w', write_twice.
    rewrite (RoundTripProps.setValue_stores value JSON_stringify quota k1 v1 _ w s1 Hs1 Hq1).
    simpl.
    by rewrite (RoundTripProps.setValue_stores value JSON_stringify quota k2 v2 _ _ s2 Hs2). }
  repeat split.
  - apply (readStored_lookup value JSON_parse k2 initialValue v2 w' s2); try done.
    rewrite Hw. apply lookup_insert_eq.
  - intros Hne.
    apply (readStored_lookup value JSON_parse k1 initialValue v1 w' s1); try done.
    rewrite Hw, lookup_insert_ne by done. apply lookup_insert_eq.
  - intros k Hk1 Hk2. unfold getItem. rewrite Hw.
    by rewrite !lookup_insert_ne.
Qed.

Lemma writes_compose_witness :
  let w' := write_twice Json stringify unlimited "count" "flag" (JNum 7) (JBool true)
                        prefilled in
  readStored Json parse "flag" JNull w' = JBool true ∧
  ("count" ≠ "flag" → readStored Json parse "count" JNull w' = JNum 7) ∧
  (∀ k, k ≠ "count" → k ≠ "flag" →
        getItem (localStorage w') k = getItem (localStorage prefilled) k).
Proof.
  apply (writes_compose Json stringify parse unlimited "count" "flag"
           (JNum 7) (JBool true) JNull prefilled "7" "true"); reflexivity.
Defined.

(** X15.  A write that fails is lost on the next mount although the hook
    shows it: when [JSON.stringify] throws or the storage refuses the
    write, the hook's value in memory is the new value, while a hook mounted
    afterwards, on any key, starts from what it would have started from
    before the write. *)
Theorem failed_write_diverges (value : Type) (JSON_stringify : value → option string)
        (JSON_parse : string → option value) (quota : Storage → bool)
        (key : string) (v : value) (h : Hook value) (w : World) :
  (JSON_stringify v = None ∨
   ∃ s, JSON_stringify v = Some s ∧ quota (<[key := s]> (localStorage w)) = false) →
  storedValue (setValue value JSON_stringify quota key v h w).1 = v ∧
  length (console (setValue value JSON_stringify quota key v h w).2)
  = S (length (console w)) ∧
  ∀ k initialValue,
    readStored value JSON_parse k initialValue
               (setValue value JSON_stringify quota key v h w).2
    = readStored value JSON_parse k initialValue w.
Proof.
  intros [Hs|(s & Hs & Hq)]; unfold setValue, setItem; rewrite Hs, ?Hq; simpl;
    (split; [done|]); (split; [rewrite length_app; simpl; lia|]);
    intros k initialValue; by apply readStored_same.
Qed.

Lemma failed_write_diverges_witness :
  storedValue (setValue Json stringify (λ _, false) "theme" (JBool false)
                        {| storedValue := JBool true |} prefilled).1 = JBool false ∧
  length (console (setValue Json stringify (λ _, false) "theme" (JBool false)
                            {| storedValue := JBool true |} prefilled).2)
  = S (length (console prefilled)) ∧
  ∀ k initialValue,
    readStored Json parse k initialValue
               (setValue Json stringify (λ _, false) "theme" (JBool false)
                         {| storedValue := JBool true |} prefilled).2
    = readStored Json parse k initialValue prefilled.
Proof.
  apply (failed_write_diverges Json stringify parse (λ _, false) "theme").
  right. exists "false". split; reflexivity.
Defined.

End StorageSeriesProps.
